(** * sql-schema-extractor: the extraction and reconciliation engine

    A shallow embedding of [src/main.py]: the normalizer and the five
    regular-expression passes of [extract_sql_components], the merge loop
    of [process_sql_folder] and the [table_db_pairs] view computed by
    [create_excel_data_dictionary].

    Python text is a sequence of Unicode code points.  The classification
    of the ASCII range is written out; what CPython's Unicode database says
    about the code points from 128 on (word characters, white space, case
    folding, upper-casing) is a parameter of the development, so every
    theorem holds for whatever those tables contain. *)

From Stdlib Require Import String Ascii.
From stdpp Require Import gmap list sets strings pretty sorting.

(** ** Text *)

Definition char := N.
Definition text := list char.

(** Code points of a literal written in ASCII. *)
Definition text_of (s : string) : text :=
  map N_of_ascii (list_ascii_of_string s).

Definition chr (a : ascii) : char := N_of_ascii a.

Definition NL : char := 10%N.
Definition TAB : char := 9%N.
Definition SP : char := 32%N.

(** What the Unicode database contributes outside ASCII. *)
Record unicode_db := {
  uni_word : char → bool;          (* str.isalnum *)
  uni_space : char → bool;         (* str.isspace *)
  uni_ieq : char → char → bool;    (* pattern letter vs text char, IGNORECASE *)
  uni_upper : char → text          (* str.upper of one code point *)
}.

(** A database with nothing outside ASCII, for running examples. *)
Definition ascii_db : unicode_db :=
  {| uni_word := λ _, false; uni_space := λ _, false;
     uni_ieq := λ _ _, false; uni_upper := λ c, [c] |}.

Definition is_ascii (c : char) : bool := (c <? 128)%N.
Definition between (lo hi c : char) : bool := ((lo <=? c) && (c <=? hi))%N.

Definition ascii_lower (c : char) : char :=
  if between 65%N 90%N c then (c + 32)%N else c.
Definition ascii_upper (c : char) : char :=
  if between 97%N 122%N c then (c - 32)%N else c.

Section Engine.
Context (U : unicode_db).

(** [\w]: alphanumeric or underscore. *)
Definition is_word (c : char) : bool :=
  if is_ascii c
  then between 48%N 57%N c || between 65%N 90%N c || between 97%N 122%N c
       || (c =? 95)%N
  else uni_word U c.

(** [\s] and [str.isspace]: both are Py_UNICODE_ISSPACE. *)
Definition is_space (c : char) : bool :=
  if is_ascii c
  then between 9%N 13%N c || between 28%N 32%N c
  else uni_space U c.

(** A literal pattern character against a text character. *)
Definition lit_eq (icase : bool) (p c : char) : bool :=
  if icase
  then if is_ascii c then (ascii_lower c =? ascii_lower p)%N else uni_ieq U p c
  else (c =? p)%N.

(** [str.upper]. *)
Definition upper (s : text) : text :=
  flat_map (λ c, if is_ascii c then [ascii_upper c] else uni_upper U c) s.

(** ** Regular expressions

    The fragment of Python's [re] syntax that the source uses.  Repetition
    occurs in the source only over single-character atoms ([\w+], [\s+],
    [.*?], [[\s\S]*?]). *)

Inductive atom :=
  | Word                   (* \w *)
  | Space                  (* \s *)
  | Dot                    (* .  (no DOTALL: anything but a newline) *)
  | AnyChar                (* [\s\S] *)
  | OneOf (cs : list char) (* [aA] *).

Inductive regex :=
  | Eps
  | Lit (c : char)
  | Atom (a : atom)
  | Cat (r1 r2 : regex)
  | Alt (r1 r2 : regex)
  | Opt (r : regex)        (* r?  greedy *)
  | Plus (a : atom)        (* a+  greedy *)
  | LazyStar (a : atom)    (* a*? *)
  | Group (i : nat) (r : regex).

Definition in_atom (a : atom) (c : char) : bool :=
  match a with
  | Word => is_word c
  | Space => is_space c
  | Dot => negb (c =? NL)%N
  | AnyChar => true
  | OneOf cs => bool_decide (c ∈ cs)
  end.

(** Captured groups: [None] is a group that did not take part. *)
Definition groups := nat → option text.
Definition no_groups : groups := λ _, None.
Definition set_group (i : nat) (v : text) (g : groups) : groups :=
  λ j, if Nat.eqb j i then Some v else g j.

(** The text consumed between [s] and its suffix [s']. *)
Definition consumed (s s' : text) : text := take (length s - length s') s.

Section Matcher.
Context {A : Type}.

Definition or_else (x y : option A) : option A :=
  match x with Some _ => x | None => y end.

(** Greedy [a*] followed by [k]: take as many as possible, give back one
    at a time. *)
Fixpoint star_greedy (p : char → bool) (s : text) (k : text → option A)
  : option A :=
  match s with
  | c :: s' => if p c then or_else (star_greedy p s' k) (k s) else k s
  | [] => k s
  end.

Definition plus_greedy (p : char → bool) (s : text) (k : text → option A)
  : option A :=
  match s with
  | c :: s' => if p c then star_greedy p s' k else None
  | [] => None
  end.

(** Lazy [a*?] followed by [k]: try [k] first, then take one more. *)
Fixpoint star_lazy (p : char → bool) (s : text) (k : text → option A)
  : option A :=
  or_else (k s)
    match s with
    | c :: s' => if p c then star_lazy p s' k else None
    | [] => None
    end.

(** Backtracking matcher in continuation-passing style: the first
    successful path in priority order, as in CPython's [sre]. *)
Fixpoint rmatch (icase : bool) (r : regex) (s : text) (g : groups)
    (k : text → groups → option A) : option A :=
  match r with
  | Eps => k s g
  | Lit p =>
      match s with
      | c :: s' => if lit_eq icase p c then k s' g else None
      | [] => None
      end
  | Atom a =>
      match s with
      | c :: s' => if in_atom a c then k s' g else None
      | [] => None
      end
  | Cat r1 r2 => rmatch icase r1 s g (λ s1 g1, rmatch icase r2 s1 g1 k)
  | Alt r1 r2 => or_else (rmatch icase r1 s g k) (rmatch icase r2 s g k)
  | Opt r1 => or_else (rmatch icase r1 s g k) (k s g)
  | Plus a => plus_greedy (in_atom a) s (λ s', k s' g)
  | LazyStar a => star_lazy (in_atom a) s (λ s', k s' g)
  | Group i r1 =>
      rmatch icase r1 s g (λ s' g', k s' (set_group i (consumed s s') g'))
  end.

End Matcher.

(** A match object: how many characters matched, and the groups. *)
Record rx_match := { m_len : nat; m_groups : groups }.

(** [pattern.match] at the head of [s]. *)
Definition match_at (icase : bool) (r : regex) (s : text) : option rx_match :=
  rmatch icase r s no_groups
    (λ s' g, Some {| m_len := length s - length s'; m_groups := g |}).

(** The left-to-right scan shared by [re.findall] and [re.sub]: try every
    position in turn; after a match of [n ≥ 1] characters resume behind its
    last character.  [on_match] and [on_char] say what a match and an
    unmatched character contribute to the output; [skip] counts the
    characters still covered by the previous match.  No pattern of the
    source matches the empty string ([used_patterns_consume] below); the
    scan records an empty match and moves on by one character. *)
Fixpoint scan {B : Type} (icase : bool) (r : regex)
    (on_match : rx_match → list B) (on_char : char → list B)
    (skip : nat) (s : text) : list B :=
  match skip with
  | S n =>
      match s with
      | _ :: s' => scan icase r on_match on_char n s'
      | [] => []
      end
  | O =>
      match match_at icase r s with
      | Some m =>
          on_match m ++
          match s with
          | c :: s' =>
              (if m_len m is O then on_char c else []) ++
              scan icase r on_match on_char (pred (m_len m)) s'
          | [] => []
          end
      | None =>
          match s with
          | c :: s' => on_char c ++ scan icase r on_match on_char O s'
          | [] => []
          end
      end
  end.

(** [re.findall(r, s, flags)]: the match objects, left to right. *)
Definition findall (icase : bool) (r : regex) (s : text) : list rx_match :=
  scan icase r (λ m, [m]) (λ _, []) O s.

(** [re.sub(r, repl, s)] for a replacement without group references. *)
Definition sub (r : regex) (repl : text) (s : text) : text :=
  scan false r (λ _, repl) (λ c, [c]) O s.

(** [re.search(r, s)]: the match at the leftmost position that has one. *)
Fixpoint search (r : regex) (s : text) : option rx_match :=
  match match_at false r s with
  | Some m => Some m
  | None => match s with _ :: s' => search r s' | [] => None end
  end.

(** [m.group(i)] as [re.findall] reports it: [''] for a group that did not
    take part. *)
Definition group_or_empty (m : rx_match) (i : nat) : text :=
  default [] (m_groups m i).

(** What [re.findall] returns for a pattern with one, two and three
    groups. *)
Definition findall1 (icase : bool) (r : regex) (s : text) : list text :=
  (λ m, group_or_empty m 1) <$> findall icase r s.
Definition findall2 (icase : bool) (r : regex) (s : text)
  : list (text * text) :=
  (λ m, (group_or_empty m 1, group_or_empty m 2)) <$> findall icase r s.
Definition findall3 (icase : bool) (r : regex) (s : text)
  : list (text * text * text) :=
  (λ m, (group_or_empty m 1, group_or_empty m 2, group_or_empty m 3))
    <$> findall icase r s.

(** ** String methods *)

Fixpoint lstrip (p : char → bool) (s : text) : text :=
  match s with
  | c :: s' => if p c then lstrip p s' else s
  | [] => []
  end.
Definition rstrip (p : char → bool) (s : text) : text :=
  reverse (lstrip p (reverse s)).

(** [s.strip()] *)
Definition strip (s : text) : text := rstrip is_space (lstrip is_space s).

(** [s.split(sep)] for a one-character separator: never an empty list. *)
Fixpoint split (sep : char) (s : text) : list text :=
  match s with
  | [] => [[]]
  | c :: s' =>
      if (c =? sep)%N then [] :: split sep s'
      else match split sep s' with
           | piece :: pieces => (c :: piece) :: pieces
           | [] => [[c]]
           end
  end.

(** [s.endswith(suffix)] *)
Definition endswith (s suffix : text) : bool :=
  bool_decide (length suffix ≤ length s) &&
  bool_decide (drop (length s - length suffix) s = suffix).

(** Truth value of a string or a list: non-empty. *)
Definition truthy {A} (l : list A) : bool :=
  match l with [] => false | _ :: _ => true end.

End Engine.

(** ** Patterns of [extract_sql_components] *)

Definition L (a : ascii) : regex := Lit (chr a).

Fixpoint seq (rs : list regex) : regex :=
  match rs with
  | [] => Eps
  | [r] => r
  | r :: rs' => Cat r (seq rs')
  end.

(** A keyword, letter by letter. *)
Definition kw (s : string) : regex := seq (Lit <$> text_of s).

(** [--.*?\n|/\*[\s\S]*?\*/|\n|\t] *)
Definition comment_pattern : regex :=
  Alt (seq [L "-"; L "-"; LazyStar Dot; Lit NL])
 (Alt (seq [L "/"; L "*"; LazyStar AnyChar; L "*"; L "/"])
 (Alt (Lit NL)
      (Lit TAB))).

(** [\s+] *)
Definition whitespace_pattern : regex := Plus Space.

(** [(\w+)\.(\w+)\.(\w+)] *)
Definition db_table_column_pattern : regex :=
  seq [Group 1 (Plus Word); L "."; Group 2 (Plus Word); L ".";
       Group 3 (Plus Word)].

(** [(\w+)\.(\w+)] *)
Definition table_column_pattern : regex :=
  seq [Group 1 (Plus Word); L "."; Group 2 (Plus Word)].

(** [FROM\s+(\w+\.)?(\w+)] *)
Definition from_pattern : regex :=
  seq [kw "FROM"; Plus Space; Opt (Group 1 (Cat (Plus Word) (L ".")));
       Group 2 (Plus Word)].

(** [JOIN\s+(\w+\.)?(\w+)] *)
Definition join_pattern : regex :=
  seq [kw "JOIN"; Plus Space; Opt (Group 1 (Cat (Plus Word) (L ".")));
       Group 2 (Plus Word)].

(** [SELECT\s+(.*?)\s+FROM] *)
Definition select_pattern : regex :=
  seq [kw "SELECT"; Plus Space; Group 1 (LazyStar Dot); Plus Space; kw "FROM"].

(** [(?:(\w+)\.)?(\w+)(?:\s+[aA][sS]\s+(\w+))?] *)
Definition column_pattern : regex :=
  seq [Opt (Cat (Group 1 (Plus Word)) (L "."));
       Group 2 (Plus Word);
       Opt (seq [Plus Space; Atom (OneOf [chr "a"; chr "A"]);
                 Atom (OneOf [chr "s"; chr "S"]); Plus Space;
                 Group 3 (Plus Word)])].

(** ** Errors

    The operations of the source that can raise: indexing a list. *)

Inductive exn := IndexError.

Inductive result (A : Type) :=
  | Ok (a : A)
  | Raise (e : exn).
Arguments Ok {A} a.
Arguments Raise {A} e.

#[global] Instance result_ret : MRet result := λ A a, Ok a.
#[global] Instance result_bind : MBind result := λ A B f x,
  match x with
  | Ok a => f a
  | Raise e => Raise e
  end.

(** [l[0]] *)
Definition index0 {A} (l : list A) : result A :=
  match l with
  | x :: _ => Ok x
  | [] => Raise IndexError
  end.

(** ** The catalog *)

Definition relationship : Type := text * text * text.

Record catalog := {
  database : gset text;
  table : gset text;
  column : gset text;
  relationships : list relationship
}.

Definition empty_catalog : catalog :=
  {| database := ∅; table := ∅; column := ∅; relationships := [] |}.

Section Extraction.
Context (U : unicode_db).

(** Lines 13-14. *)
Definition normalize (content : text) : text :=
  let content := sub U comment_pattern [SP] content in
  strip U (sub U whitespace_pattern [SP] content).

(** [name.upper() not in ('SELECT', 'FROM', 'WHERE', 'JOIN')] *)
Definition reserved_words : list text :=
  text_of <$> ["SELECT"; "FROM"; "WHERE"; "JOIN"]%string.
Definition not_reserved (name : text) : bool :=
  negb (bool_decide (upper U name ∈ reserved_words)).

(** Lines 41-49: what one fragment of the SELECT list appends to
    [columns]. *)
Definition select_column (col : text) : list text :=
  let col := strip U col in
  match search U column_pattern col with
  | Some col_match =>
      match m_groups col_match 2 with
      | Some column_name =>
          if truthy column_name && not_reserved column_name
          then [column_name] else []
      | None => []
      end
  | None => []
  end.

(** Lines 38-49. *)
Definition select_columns (select_matches : list text) : result (list text) :=
  if truthy select_matches then
    first ← index0 select_matches ;
    Ok (flat_map select_column (split (chr ",") first))
  else Ok [].

(** Lines 60-64, the body of the loop. *)
Definition add_triple (result : catalog) (m : relationship) : catalog :=
  let '(db, tbl, col) := m in
  {| database := {[db]} ∪ database result;
     table := {[tbl]} ∪ table result;
     column := {[col]} ∪ column result;
     relationships := relationships result ++ [(db, tbl, col)] |}.

(** Lines 67-73. *)
Definition add_pair (result : catalog) (m : text * text) : catalog :=
  let '(tbl, col) := m in
  if bool_decide (tbl ∉ database result) then
    {| database := database result;
       table := {[tbl]} ∪ table result;
       column := {[col]} ∪ column result;
       relationships := relationships result ++ [([], tbl, col)] |}
  else result.

(** Lines 76-81 and 84-89: the FROM and JOIN loops have the same body. *)
Definition add_clause (result : catalog) (m : text * text) : catalog :=
  let '(db_prefix, tbl) := m in
  if not_reserved tbl then
    {| database :=
         if truthy db_prefix
         then {[rstrip (λ c, (c =? chr ".")%N) db_prefix]} ∪ database result
         else database result;
       table := {[tbl]} ∪ table result;
       column := column result;
       relationships := relationships result |}
  else result.

(** Lines 92-93. *)
Definition add_column (result : catalog) (col : text) : catalog :=
  {| database := database result;
     table := table result;
     column := {[col]} ∪ column result;
     relationships := relationships result |}.

(** The state of [result] after the loops over the triple and the pair
    matches of an already normalized text. *)
Definition after_triples (content : text) : catalog :=
  foldl add_triple empty_catalog (findall3 U false db_table_column_pattern content).
Definition after_pairs (content : text) : catalog :=
  foldl add_pair (after_triples content)
    (findall2 U false table_column_pattern content).
Definition after_clauses (content : text) : catalog :=
  foldl add_clause
    (foldl add_clause (after_pairs content)
       (findall2 U true from_pattern content))
    (findall2 U true join_pattern content).

(** [extract_sql_components], from the text that [file.read()] returned. *)
Definition extract_sql_components (content : text) : result catalog :=
  let content := normalize content in
  let select_matches := findall1 U true select_pattern content in
  columns ← select_columns select_matches ;
  Ok (foldl add_column (after_clauses content) columns).

(** ** [process_sql_folder]

    A folder is what [os.listdir] enumerates, each name with the text the
    file holds. *)

Definition merge (all_components file_components : catalog) : catalog :=
  {| database := database all_components ∪ database file_components;
     table := table all_components ∪ table file_components;
     column := column all_components ∪ column file_components;
     relationships :=
       relationships all_components ++ relationships file_components |}.

Fixpoint merge_files (all_components : catalog) (contents : list text)
  : result catalog :=
  match contents with
  | [] => Ok all_components
  | content :: rest =>
      file_components ← extract_sql_components content ;
      merge_files (merge all_components file_components) rest
  end.

Definition sql_files (folder : list (text * text)) : list (text * text) :=
  filter (λ f, endswith f.1 (text_of ".sql") = true) folder.

Definition process_sql_folder (folder : list (text * text)) : result catalog :=
  merge_files empty_catalog (snd <$> sql_files folder).

(** The catalog that [process_sql_folder] builds from the per-file
    catalogs, when no file raises. *)
Definition merge_all (catalogs : list catalog) : catalog :=
  foldl merge empty_catalog catalogs.

(** ** [create_excel_data_dictionary], lines 182-185 *)

Definition add_table_db (pairs : gset (text * text)) (r : relationship)
  : gset (text * text) :=
  let '(db, tbl, _) := r in
  if truthy db && truthy tbl then {[(tbl, db)]} ∪ pairs else pairs.

Definition table_db_pairs (components : catalog) : gset (text * text) :=
  foldl add_table_db ∅ (relationships components).

End Extraction.

(** ** Sorting

    [sorted] on text compares code points, position by position, a proper
    prefix coming first; on tuples it compares component by component. *)

(** [a <= b] on sequences, as Python compares strings and tuples: the
    first position where they differ decides, a proper prefix is smaller. *)
Fixpoint lex_leb {A} `{EqDecision A} (leb : A → A → bool) (a b : list A)
  : bool :=
  match a, b with
  | [], _ => true
  | _ :: _, [] => false
  | x :: a', y :: b' => if decide (x = y) then lex_leb leb a' b' else leb x y
  end.

Definition text_leb : text → text → bool := lex_leb N.leb.
Definition pair_leb (p q : text * text) : bool :=
  lex_leb text_leb [p.1; p.2] [q.1; q.2].
Definition triple_leb (p q : text * text * text) : bool :=
  lex_leb text_leb [p.1.1; p.1.2; p.2] [q.1.1; q.1.2; q.2].

(** [sorted(xs)] *)
Definition sorted {A} (leb : A → A → bool) (xs : list A) : list A :=
  merge_sort (λ x y, leb x y = true)
    (H := λ x y, decide (leb x y = true)) xs.

(** ** [create_excel_data_dictionary]: what is written into the cells

    A sheet is the map from cell references to the values its cells hold.
    An assignment [sheet[ref] = value] goes through the cell setter of
    openpyxl: a string is cut to its first 32767 characters, and
    [IllegalCharacterError] is raised when what is left holds a control
    character that a worksheet cannot store.  The source catches nothing,
    so the exception ends [create_excel_data_dictionary]; [None] stands for
    it.  The fonts and fills of the header cells, the column widths and the
    saving of the file are left out. *)

Section Report.
Local Open Scope char_scope.

Inductive value :=
  | Str (s : text)
  | Int (n : nat).

Definition str (s : string) : value := Str (text_of s).

(** The cell reference [f"{col}{row}"]. *)
Definition cell (col : ascii) (row : nat) : string := String col (pretty row).

(** The longest string a cell holds. *)
Definition max_cell_length : nat := Pos.to_nat 32767.

(** [ILLEGAL_CHARACTERS_RE]: the code points 0 to 8, 11, 12 and 14 to 31,
    the control characters other than tab, newline and carriage return. *)
Definition illegal (c : char) : bool :=
  between 0%N 8%N c || between 11%N 12%N c || between 14%N 31%N c.

(** [Cell.check_string]: [value = value[:32767]], then the search for an
    illegal character. *)
Definition check_string (value : text) : option text :=
  let value := take max_cell_length value in
  if existsb illegal value then None else Some value.

(** [sheet[ref] = value] *)
Definition set_cell (ref : string) (v : value) (sheet : gmap string value)
  : option (gmap string value) :=
  match v with
  | Str s => value ← check_string s; Some (<[ref := Str value]> sheet)
  | Int n => Some (<[ref := Int n]> sheet)
  end.

(** A loop whose body can raise. *)
Fixpoint for_each {A B} (body : A → B → option A) (a : A) (xs : list B)
  : option A :=
  match xs with
  | [] => Some a
  | x :: xs' => a' ← body a x; for_each body a' xs'
  end.

(** One turn of a loop that fills a row and moves to the next. *)
Definition write_row (cells : list (ascii * value))
    (st : gmap string value * nat) : option (gmap string value * nat) :=
  sheet ← for_each (λ sheet cv, set_cell (cell cv.1 st.2) cv.2 sheet)
             st.1 cells;
  Some (sheet, S st.2).

(** Lines 216-218. *)
Definition add_col_relationship (rels : gset (text * text * text))
    (r : relationship) : gset (text * text * text) :=
  let '(db, tbl, col) := r in {[(col, tbl, db)]} ∪ rels.

Definition col_relationships (components : catalog)
  : gset (text * text * text) :=
  foldl add_col_relationship ∅ (relationships components).

(** Line 188. *)
Definition standalone_tables (components : catalog) : gset text :=
  table components ∖ set_map fst (table_db_pairs components).

(** Line 221. *)
Definition standalone_columns (components : catalog) : gset text :=
  column components ∖ set_map (λ r : text * text * text, r.1.1)
                        (col_relationships components).

Record workbook := {
  overview_sheet : gmap string value;
  database_sheet : gmap string value;
  table_sheet : gmap string value;
  column_sheet : gmap string value;
  relationship_sheet : gmap string value
}.

(** Lines 145-154. *)
Definition fill_overview (components : catalog)
  : option (gmap string value) :=
  sheet ← set_cell "A1" (str "Data Dictionary Overview") ∅;
  sheet ← set_cell "A3" (str "Total Databases:") sheet;
  sheet ← set_cell "B3" (Int (size (database components))) sheet;
  sheet ← set_cell "A4" (str "Total Tables:") sheet;
  sheet ← set_cell "B4" (Int (size (table components))) sheet;
  sheet ← set_cell "A5" (str "Total Columns:") sheet;
  sheet ← set_cell "B5" (Int (size (column components))) sheet;
  sheet ← set_cell "A6" (str "Total Relationships:") sheet;
  set_cell "B6" (Int (length (relationships components))) sheet.

(** Lines 157-168. *)
Definition fill_databases (components : catalog)
  : option (gmap string value) :=
  sheet ← set_cell "A1" (str "Database Name") ∅;
  sheet ← set_cell "B1" (str "Description") sheet;
  st ← for_each
         (λ st database, write_row [("A", Str database); ("B", Str [])] st)
         (sheet, 2) (sorted text_leb (elements (database components)));
  Some st.1.

(** Lines 171-203. *)
Definition fill_tables (components : catalog) : option (gmap string value) :=
  sheet ← set_cell "A1" (str "Table Name") ∅;
  sheet ← set_cell "B1" (str "Database") sheet;
  sheet ← set_cell "C1" (str "Description") sheet;
  st ← for_each
         (λ st '(tbl, db),
            write_row [("A", Str tbl); ("B", Str db); ("C", Str [])] st)
         (sheet, 2) (sorted pair_leb (elements (table_db_pairs components)));
  st ← for_each
         (λ st tbl,
            write_row [("A", Str tbl); ("B", Str []); ("C", Str [])] st)
         st (sorted text_leb (elements (standalone_tables components)));
  Some st.1.

(** Lines 206-240. *)
Definition fill_columns (components : catalog) : option (gmap string value) :=
  sheet ← set_cell "A1" (str "Column Name") ∅;
  sheet ← set_cell "B1" (str "Table") sheet;
  sheet ← set_cell "C1" (str "Database") sheet;
  sheet ← set_cell "D1" (str "Data Type") sheet;
  sheet ← set_cell "E1" (str "Description") sheet;
  st ← for_each
         (λ st '(col, tbl, db),
            write_row [("A", Str col); ("B", Str tbl); ("C", Str db);
                       ("D", Str []); ("E", Str [])] st)
         (sheet, 2)
         (sorted triple_leb (elements (col_relationships components)));
  st ← for_each
         (λ st col,
            write_row [("A", Str col); ("B", Str []); ("C", Str []);
                       ("D", Str []); ("E", Str [])] st)
         st (sorted text_leb (elements (standalone_columns components)));
  Some st.1.

(** Lines 243-255. *)
Definition fill_relationships (components : catalog)
  : option (gmap string value) :=
  sheet ← set_cell "A1" (str "Database") ∅;
  sheet ← set_cell "B1" (str "Table") sheet;
  sheet ← set_cell "C1" (str "Column") sheet;
  st ← for_each
         (λ st '(db, tbl, col),
            write_row [("A", Str db); ("B", Str tbl); ("C", Str col)] st)
         (sheet, 2) (sorted triple_leb (relationships components));
  Some st.1.

(** The cell values of the workbook that [create_excel_data_dictionary]
    saves, or [None] when a cell setter raises. *)
Definition create_excel_data_dictionary (components : catalog)
  : option workbook :=
  overview ← fill_overview components;
  databases ← fill_databases components;
  tables ← fill_tables components;
  columns ← fill_columns components;
  relationships ← fill_relationships components;
  Some {| overview_sheet := overview;
          database_sheet := databases;
          table_sheet := tables;
          column_sheet := columns;
          relationship_sheet := relationships |}.

End Report.

(** ** What a match is

    The declarative reading of the patterns: [matches icase r s g s' g']
    says that [r] can consume a prefix of [s], leaving [s'] and turning the
    groups [g] into [g'].  The matcher returns only such matches
    ([rmatch_sound]). *)

Section Semantics.
Context (U : unicode_db).

Inductive matches (icase : bool)
  : regex → text → groups → text → groups → Prop :=
  | M_Eps s g : matches icase Eps s g s g
  | M_Lit p c s g :
      lit_eq U icase p c = true → matches icase (Lit p) (c :: s) g s g
  | M_Atom a c s g :
      in_atom U a c = true → matches icase (Atom a) (c :: s) g s g
  | M_Cat r1 r2 s g s1 g1 s2 g2 :
      matches icase r1 s g s1 g1 → matches icase r2 s1 g1 s2 g2 →
      matches icase (Cat r1 r2) s g s2 g2
  | M_AltL r1 r2 s g s' g' :
      matches icase r1 s g s' g' → matches icase (Alt r1 r2) s g s' g'
  | M_AltR r1 r2 s g s' g' :
      matches icase r2 s g s' g' → matches icase (Alt r1 r2) s g s' g'
  | M_OptSome r s g s' g' :
      matches icase r s g s' g' → matches icase (Opt r) s g s' g'
  | M_OptNone r s g : matches icase (Opt r) s g s g
  | M_Plus a c cs s g :
      Forall (λ x, in_atom U a x = true) (c :: cs) →
      matches icase (Plus a) (c :: cs ++ s) g s g
  | M_LazyStar a cs s g :
      Forall (λ x, in_atom U a x = true) cs →
      matches icase (LazyStar a) (cs ++ s) g s g
  | M_Group i r s g s' g' :
      matches icase r s g s' g' →
      matches icase (Group i r) s g s' (set_group i (consumed s s') g').

(** The least number of characters a pattern consumes. *)
Fixpoint min_len (r : regex) : nat :=
  match r with
  | Eps | Opt _ | LazyStar _ => 0
  | Lit _ | Atom _ | Plus _ => 1
  | Cat r1 r2 => min_len r1 + min_len r2
  | Alt r1 r2 => min_len r1 `min` min_len r2
  | Group _ r1 => min_len r1
  end.

End Semantics.

(** ** The normalizer in the words of the specification

    A left-to-right pass that knows whether it is in code, in a line
    comment or in a block comment.  A comment is replaced by [fill]: the
    empty text when comments are removed, one space when they are blanked.
    A line comment runs from [--] to the newline that ends its line;
    [to_end] says whether a [--] on a last line that no newline ends is a
    comment as well, one that runs to the end of the text.  A block comment
    is a [/*] that has a closing [*/]. *)




Definition blank (c : char) : char :=
  if ((c =? NL) || (c =? TAB))%N then SP else c.


Section NormalizerSpec.
Context (U : unicode_db).

(** A run of white space becomes one space. *)
Fixpoint squeeze (in_run : bool) (s : text) : text :=
  match s with
  | [] => []
  | c :: s' =>
      if is_space U c
      then (if in_run then [] else [SP]) ++ squeeze true s'
      else c :: squeeze false s'
  end.


End NormalizerSpec.

(** ** Vocabulary of the statements *)

(** The pairs that survive the check against the database names, and the
    relationship a surviving pair becomes. *)
Definition surviving (dbs : gset text) (ps : list (text * text))
  : list (text * text) :=
  filter (λ p, p.1 ∉ dbs) ps.

Definition unqualified (p : text * text) : relationship := ([], p.1, p.2).

(** The columns the SELECT pass contributes when indexing does not fail. *)
Definition columns_of (U : unicode_db) (select_matches : list text)
  : list text :=
  match select_matches with
  | [] => []
  | first :: _ => flat_map (select_column U) (split (chr ",") first)
  end.

(** The catalog of one file, when nothing raises. *)
Definition file_catalog (U : unicode_db) (content : text) : catalog :=
  let n := normalize U content in
  foldl add_column (after_clauses U n)
    (columns_of U (findall1 U true select_pattern n)).

(** The text behind the line that [s] is in, and the text behind the first
    block-comment terminator in [s]. *)
Fixpoint after_line (s : text) : option text :=
  match s with
  | [] => None
  | c :: s' => if (c =? NL)%N then Some s' else after_line s'
  end.

Fixpoint after_close (s : text) : option text :=
  match s with
  | c1 :: s1 =>
      match s1 with
      | c2 :: s2 =>
          if ((c1 =? chr "*") && (c2 =? chr "/"))%N then Some s2
          else after_close s1
      | [] => None
      end
  | [] => None
  end.

(** What [comment_pattern] matches at the head of [s], as the text behind
    the match: a newline or a tab, a [--] with the rest of its line, or a
    [/*] up to the first terminator. *)
Definition comment_token (s : text) : option text :=
  match s with
  | c1 :: s1 =>
      if ((c1 =? NL) || (c1 =? TAB))%N then Some s1
      else match s1 with
           | c2 :: s2 =>
               if ((c1 =? chr "-") && (c2 =? chr "-"))%N then after_line s2
               else if ((c1 =? chr "/") && (c2 =? chr "*"))%N
               then after_close s2
               else None
           | [] => None
           end
  | [] => None
  end.

(** The match object of a pattern without groups that matched [s] up to
    [rest]. *)
Definition found (s rest : text) : rx_match :=
  {| m_len := length s - length rest; m_groups := no_groups |}.

(** A text of two lines with a comment on each, for the examples. *)
Definition two_lines : text :=
  text_of "SELECT id -- from customers" ++ [NL] ++
  text_of " FROM orders /* all of them */" ++ [NL].


(** The invariant of a catalog: a relationship names only members of the
    identifier sets. *)
Definition rel_closed (c : catalog) : Prop :=
  ∀ db tbl col, (db, tbl, col) ∈ relationships c →
    (db = [] ∨ db ∈ database c) ∧ tbl ∈ table c ∧ col ∈ column c.

(** Every relationship has a table name. *)
Definition rel_named (c : catalog) : Prop :=
  ∀ db tbl col, (db, tbl, col) ∈ relationships c → tbl ≠ [].

(** One identifier set is contained in the other, field by field. *)
Definition sets_grow (c c' : catalog) : Prop :=
  database c ⊆ database c' ∧ table c ⊆ table c' ∧ column c ⊆ column c'.

(** An identifier as the patterns capture it: a non-empty run of word
    characters. *)
Definition word (U : unicode_db) (w : text) : Prop :=
  w ≠ [] ∧ Forall (λ c, is_word U c = true) w.

(** The case-insensitive table relates no character to the dot, which has
    no case. *)
Definition dot_plain (U : unicode_db) : Prop :=
  ∀ c, uni_ieq U (chr ".") c = false.

(** The shape of a FROM or JOIN match: a table, and a prefix that is empty
    or a word with the character that matched the dot. *)
Definition clause_shape (U : unicode_db) (s : text) (m : rx_match) : Prop :=
  word U (group_or_empty m 2) ∧
  (group_or_empty m 1 = [] ∨
   ∃ w x, word U w ∧ group_or_empty m 1 = w ++ [x] ∧
          lit_eq U true (chr ".") x = true ∧ x ∈ s).

(** [db_prefix.rstrip('.')] *)
Definition strip_dots (s : text) : text := rstrip (λ c, (c =? chr ".")%N) s.

Definition clause_matches (U : unicode_db) (n : text) : list (text * text) :=
  findall2 U true from_pattern n ++ findall2 U true join_pattern n.

(** A complete comment: a block comment whose body holds no terminator, or
    a line comment with its newline. *)
Definition is_comment (cmt : text) : Prop :=
  (∃ body, cmt = text_of "/*" ++ body ++ text_of "*/" ∧
           after_close body = None) ∨
  (∃ body, (NL ∉ body) ∧ cmt = text_of "--" ++ body ++ [NL]).

(** Text without the characters that open a comment. *)
Definition opener_free (s : text) : Prop :=
  (chr "-" ∉ s) ∧ (chr "/" ∉ s).

(** No character is both a word character and white space. *)
Definition classes_disjoint (U : unicode_db) : Prop :=
  ∀ x, is_word U x = true → is_space U x = false.

(** The qualifier and the alias that a fragment of the SELECT list may
    carry around its column, and the part of [column_pattern] for the
    alias. *)
Definition qualifier_of (U : unicode_db) (q : text) : Prop :=
  q = [] ∨ ∃ t, word U t ∧ q = t ++ [chr "."].
Definition alias_of (U : unicode_db) (al : text) : Prop :=
  al = [] ∨ ∃ a, word U a ∧ al = text_of " AS " ++ a.

Definition alias_pattern : regex :=
  seq [Plus Space; Atom (OneOf [chr "a"; chr "A"]);
       Atom (OneOf [chr "s"; chr "S"]); Plus Space; Group 3 (Plus Word)].

(** An order given by a boolean test. *)
Class BoolOrder {A} (leb : A → A → bool) := {
  leb_total x y : leb x y = true ∨ leb y x = true;
  leb_trans x y z : leb x y = true → leb y z = true → leb x z = true;
  leb_antisym x y : leb x y = true → leb y x = true → x = y
}.




(** The rows a loop leaves in a sheet when nothing raises, one list of
    cells for each turn. *)
Definition put_row (cells : list (ascii * value))
    (st : gmap string value * nat) : gmap string value * nat :=
  (foldl (λ sh cv, <[cell cv.1 st.2 := cv.2]> sh) st.1 cells, S st.2).
Definition put_rows (rows : list (list (ascii * value)))
    (st : gmap string value * nat) : gmap string value * nat :=
  foldl (λ st row, put_row row st) st rows.


(** The rows below the header of each sheet, and the sheets of the
    workbook when no assignment raises. *)
Section Rows.
Local Open Scope char_scope.











End Rows.

(** Text as the normalizer leaves it. *)
Definition tidy (U : unicode_db) (s : text) : Prop :=
  (∀ c, c ∈ s → is_space U c = true → c = SP) ∧
  (∀ i, s !! i = Some SP → s !! S i ≠ Some SP) ∧
  (∀ c, head s = Some c → is_space U c = false) ∧
  (∀ c, last s = Some c → is_space U c = false).

(** A fully qualified name, [d.t.c]. *)
Definition qualified_name (d t c : text) : text :=
  d ++ chr "." :: t ++ chr "." :: c.


(** * Properties *)

(** ** The matcher *)

Section MatcherFacts.
Context (U : unicode_db).

Lemma or_else_Some {A} (x y : option A) (a : A) :
  or_else x y = Some a → x = Some a ∨ (x = None ∧ y = Some a).
Proof. destruct x; simpl; intros; [left|right]; auto. Qed.

Lemma consumed_app (pre s : text) : consumed (pre ++ s) s = pre.
Proof.
  unfold consumed. rewrite length_app.
  replace (length pre + length s - length s) with (length pre) by lia.
  by rewrite take_app_length.
Qed.

Lemma star_greedy_sound {A} p s (k : text → option A) x :
  star_greedy p s k = Some x →
  ∃ cs s', s = cs ++ s' ∧ Forall (λ c, p c = true) cs ∧ k s' = Some x.
Proof.
  induction s as [|c s IH]; simpl.
  - intros H. exists [], []. auto.
  - destruct (p c) eqn:Hp.
    + intros [H|[_ H]]%or_else_Some.
      * destruct (IH H) as (cs & s' & -> & Hcs & Hk).
        exists (c :: cs), s'. auto.
      * exists [], (c :: s). auto.
    + intros H. exists [], (c :: s). auto.
Qed.

Lemma plus_greedy_sound {A} p s (k : text → option A) x :
  plus_greedy p s k = Some x →
  ∃ c cs s', s = c :: cs ++ s' ∧ Forall (λ c, p c = true) (c :: cs) ∧
             k s' = Some x.
Proof.
  destruct s as [|c s]; simpl; [done|].
  destruct (p c) eqn:Hp; [|done].
  intros (cs & s' & -> & Hcs & Hk)%star_greedy_sound.
  exists c, cs, s'. auto.
Qed.

Lemma star_lazy_sound {A} p s (k : text → option A) x :
  star_lazy p s k = Some x →
  ∃ cs s', s = cs ++ s' ∧ Forall (λ c, p c = true) cs ∧ k s' = Some x.
Proof.
  induction s as [|c s IH]; simpl.
  - intros [H|[_ H]]%or_else_Some; [|done]. exists [], []. auto.
  - intros [H|[_ H]]%or_else_Some.
    + exists [], (c :: s). auto.
    + destruct (p c) eqn:Hp; [|done].
      destruct (IH H) as (cs & s' & -> & Hcs & Hk).
      exists (c :: cs), s'. auto.
Qed.

(** The matcher only reports matches. *)
Lemma rmatch_sound {A} icase r :
  ∀ s g (k : text → groups → option A) x,
    rmatch U icase r s g k = Some x →
    ∃ s' g', matches U icase r s g s' g' ∧ k s' g' = Some x.
Proof.
  induction r as [|p|a|r1 IH1 r2 IH2|r1 IH1 r2 IH2|r IH|a|a|i r IH];
    intros s g k x; simpl.
  - intros H. exists s, g. split; [constructor|done].
  - destruct s as [|c s]; [done|]. destruct (lit_eq U icase p c) eqn:E; [|done].
    intros H. exists s, g. split; [by constructor|done].
  - destruct s as [|c s]; [done|]. destruct (in_atom U a c) eqn:E; [|done].
    intros H. exists s, g. split; [by constructor|done].
  - intros (s1 & g1 & H1 & (s2 & g2 & H2 & Hk)%IH2)%IH1.
    exists s2, g2. split; [by econstructor|done].
  - intros [H|[_ H]]%or_else_Some.
    + apply IH1 in H as (s' & g' & H & Hk). exists s', g'.
      split; [by apply M_AltL|done].
    + apply IH2 in H as (s' & g' & H & Hk). exists s', g'.
      split; [by apply M_AltR|done].
  - intros [H|[_ H]]%or_else_Some.
    + apply IH in H as (s' & g' & H & Hk). exists s', g'.
      split; [by apply M_OptSome|done].
    + exists s, g. split; [apply M_OptNone|done].
  - intros (c & cs & s' & -> & Hcs & Hk)%plus_greedy_sound.
    exists s', g. split; [by constructor|done].
  - intros (cs & s' & -> & Hcs & Hk)%star_lazy_sound.
    exists s', g. split; [by constructor|done].
  - intros (s' & g' & H & Hk)%IH.
    exists s', (set_group i (consumed s s') g'). split; [by constructor|done].
Qed.

(** A match consumes a prefix, of at least [min_len] characters. *)
Lemma matches_prefix icase r s g s' g' :
  matches U icase r s g s' g' →
  ∃ pre, s = pre ++ s' ∧ min_len r ≤ length pre.
Proof.
  induction 1 as [s g|p c s g _|a c s g _
    |r1 r2 s g s1 g1 s2 g2 _ (p1 & -> & Hp1) _ (p2 & -> & Hp2)
    |r1 r2 s g s' g' _ (p & -> & Hp)|r1 r2 s g s' g' _ (p & -> & Hp)
    |r s g s' g' _ (p & -> & Hp)|r s g|a c cs s g _|a cs s g _
    |i r s g s' g' _ (p & -> & Hp)]; simpl.
  - by exists [].
  - by exists [c].
  - by exists [c].
  - exists (p1 ++ p2). rewrite length_app, <-(assoc_L (++)). split; [done|lia].
  - exists p. split; [done|lia].
  - exists p. split; [done|lia].
  - exists p. split; [done|lia].
  - exists []. split; [done|simpl; lia].
  - exists (c :: cs). split; [done|simpl; lia].
  - exists cs. split; [done|lia].
  - by exists p.
Qed.

Lemma match_at_sound icase r s m :
  match_at U icase r s = Some m →
  ∃ s', matches U icase r s no_groups s' (m_groups m) ∧
        m_len m = length s - length s'.
Proof.
  unfold match_at. intros (s' & g' & H & [= <-])%rmatch_sound.
  by exists s'.
Qed.

(** A pattern with [min_len r ≥ 1] never matches the empty string. *)
Lemma match_at_consumes icase r s m :
  match_at U icase r s = Some m → min_len r ≤ m_len m.
Proof.
  intros (s' & (p & -> & Hp)%matches_prefix & ->)%match_at_sound.
  rewrite length_app. lia.
Qed.

Lemma used_patterns_consume :
  Forall (λ r, 1 ≤ min_len r)
    [comment_pattern; whitespace_pattern; db_table_column_pattern;
     table_column_pattern; from_pattern; join_pattern; select_pattern;
     column_pattern].
Proof. repeat constructor; vm_compute; lia. Qed.

End MatcherFacts.

(** ** The scan *)

Section ScanFacts.
Context (U : unicode_db).

(** Skipping [n] characters is dropping them. *)
Lemma scan_skip {B} icase r (on_match : rx_match → list B) on_char n s :
  scan U icase r on_match on_char n s =
  if bool_decide (n ≤ length s)
  then scan U icase r on_match on_char 0 (drop n s) else [].
Proof.
  revert s. induction n as [|n IH]; intros s.
  - rewrite bool_decide_eq_true_2 by lia. by rewrite drop_0.
  - destruct s as [|c s]; [done|]. simpl scan at 1. rewrite IH.
    simpl. repeat case_bool_decide; done || lia.
Qed.

(** Whatever the scan produces comes from a match or from a character. *)
Lemma scan_elem {B} icase r (on_match : rx_match → list B) on_char n s x :
  x ∈ scan U icase r on_match on_char n s →
  (∃ m s0, match_at U icase r s0 = Some m ∧ x ∈ on_match m) ∨
  (∃ c, x ∈ on_char c).
Proof.
  revert n. induction s as [|c s IH]; intros n.
  - destruct n; simpl; [|by intros ?%elem_of_nil].
    destruct (match_at U icase r []) as [m|] eqn:E;
      [|by intros ?%elem_of_nil].
    rewrite app_nil_r. intros Hx. left. by exists m, [].
  - destruct n as [|n]; simpl; [|apply IH].
    destruct (match_at U icase r (c :: s)) as [m|] eqn:E.
    + rewrite !elem_of_app. intros [Hx|[Hx|Hx]].
      * left. by exists m, (c :: s).
      * destruct (m_len m); [|by apply elem_of_nil in Hx]. right. by exists c.
      * by apply IH in Hx.
    + rewrite elem_of_app. intros [Hx|Hx]; [right; by exists c|by apply IH in Hx].
Qed.

Lemma findall_elem icase r s m :
  m ∈ findall U icase r s → ∃ s0, match_at U icase r s0 = Some m.
Proof.
  intros [(m' & s0 & E & ->%list_elem_of_singleton)|[c []%elem_of_nil]]%scan_elem.
  by exists s0.
Qed.

Ltac inv_matches :=
  repeat match goal with
    | H : matches _ _ (Cat _ _) _ _ _ _ |- _ => inversion H; subst; clear H
    | H : matches _ _ (Group _ _) _ _ _ _ |- _ => inversion H; subst; clear H
    | H : matches _ _ (Plus _) _ _ _ _ |- _ => inversion H; subst; clear H
    | H : matches _ _ (Lit _) _ _ _ _ |- _ => inversion H; subst; clear H
    end.

(** The three groups of a triple match are non-empty identifiers. *)
Lemma triple_match_groups s m :
  match_at U false db_table_column_pattern s = Some m →
  ∃ db tbl col, db ≠ [] ∧ tbl ≠ [] ∧ col ≠ [] ∧
    group_or_empty m 1 = db ∧ group_or_empty m 2 = tbl ∧
    group_or_empty m 3 = col.
Proof.
  intros (s' & H & _)%match_at_sound. unfold group_or_empty.
  cbv [db_table_column_pattern seq L] in H. inv_matches.
  rewrite !app_comm_cons, !consumed_app. simpl.
  by eexists (_ :: _), (_ :: _), (_ :: _).
Qed.

Lemma pair_match_groups s m :
  match_at U false table_column_pattern s = Some m →
  ∃ tbl col, tbl ≠ [] ∧ col ≠ [] ∧
    group_or_empty m 1 = tbl ∧ group_or_empty m 2 = col.
Proof.
  intros (s' & H & _)%match_at_sound. unfold group_or_empty.
  cbv [table_column_pattern seq L] in H. inv_matches.
  rewrite !app_comm_cons, !consumed_app. simpl.
  by eexists (_ :: _), (_ :: _).
Qed.

Lemma findall3_triple_nonempty s db tbl col :
  (db, tbl, col) ∈ findall3 U false db_table_column_pattern s →
  db ≠ [] ∧ tbl ≠ [] ∧ col ≠ [].
Proof.
  unfold findall3. intros (m & [= -> -> ->] & Hm)%list_elem_of_fmap.
  apply findall_elem in Hm as (s0 & Hm).
  apply triple_match_groups in Hm as (?&?&?&?&?&?&->&->&->). done.
Qed.

Lemma findall2_pair_nonempty s tbl col :
  (tbl, col) ∈ findall2 U false table_column_pattern s →
  tbl ≠ [] ∧ col ≠ [].
Proof.
  unfold findall2. intros (m & [= -> ->] & Hm)%list_elem_of_fmap.
  apply findall_elem in Hm as (s0 & Hm).
  apply pair_match_groups in Hm as (?&?&?&?&->&->). done.
Qed.

End ScanFacts.

(** ** The loops over the matches *)

Section Aggregation.
Context (U : unicode_db).

Lemma foldl_invariant {A B} (P : A → Prop) (f : A → B → A) l a :
  P a → (∀ a b, P a → P (f a b)) → P (foldl f a l).
Proof. intros Ha Hf. revert a Ha. induction l; simpl; auto. Qed.

Lemma foldl_step {A B} (f : A → B → A) a b l :
  foldl f a (b :: l) = foldl f (f a b) l.
Proof. done. Qed.

Lemma sets_grow_refl c : sets_grow c c.
Proof. by repeat split. Qed.

Lemma sets_grow_trans c1 c2 c3 :
  sets_grow c1 c2 → sets_grow c2 c3 → sets_grow c1 c3.
Proof. unfold sets_grow. set_solver. Qed.

Lemma foldl_sets_grow {B} (f : catalog → B → catalog) l c :
  (∀ c b, sets_grow c (f c b)) → sets_grow c (foldl f c l).
Proof.
  intros Hf. revert c. induction l as [|b l IH]; intros c; simpl.
  - apply sets_grow_refl.
  - eapply sets_grow_trans; [apply Hf|apply IH].
Qed.

(** *** Triples *)

Lemma add_triple_grows c m : sets_grow c (add_triple c m).
Proof. destruct m as [[db tbl] col]. unfold sets_grow; simpl. set_solver. Qed.

Lemma add_triple_closed c m : rel_closed c → rel_closed (add_triple c m).
Proof.
  destruct m as [[db tbl] col]. unfold rel_closed; simpl. intros Hc d t k.
  rewrite elem_of_app, list_elem_of_singleton. intros [H|[= -> -> ->]].
  - specialize (Hc _ _ _ H). set_solver.
  - set_solver.
Qed.

Lemma triples_relationships c ms :
  relationships (foldl add_triple c ms) = relationships c ++ ms.
Proof.
  revert c. induction ms as [|[[db tbl] col] ms IH]; intros c; simpl.
  - by rewrite app_nil_r.
  - rewrite IH. simpl. by rewrite <-(assoc_L (++)).
Qed.

Lemma triples_database c ms :
  database (foldl add_triple c ms) =
  list_to_set ((λ m, m.1.1) <$> ms) ∪ database c.
Proof.
  revert c. induction ms as [|[[db tbl] col] ms IH]; intros c; simpl.
  - set_solver.
  - rewrite IH. simpl. set_solver.
Qed.

(** *** Pairs *)

Lemma add_pair_database c m : database (add_pair c m) = database c.
Proof. destruct m as [tbl col]. unfold add_pair. by case_bool_decide. Qed.

Lemma add_pair_grows c m : sets_grow c (add_pair c m).
Proof.
  destruct m as [tbl col]. unfold add_pair, sets_grow.
  case_bool_decide; simpl; set_solver.
Qed.

Lemma add_pair_closed c m : rel_closed c → rel_closed (add_pair c m).
Proof.
  destruct m as [tbl col]. unfold add_pair. case_bool_decide; [|done].
  unfold rel_closed; simpl. intros Hc d t k.
  rewrite elem_of_app, list_elem_of_singleton. intros [H'|[= -> -> ->]].
  - specialize (Hc _ _ _ H'). set_solver.
  - set_solver.
Qed.

(** A pair whose first identifier is a database name changes nothing. *)
Lemma add_pair_discard c x y : x ∈ database c → add_pair c (x, y) = c.
Proof. intros Hx. unfold add_pair. by rewrite bool_decide_eq_false_2 by auto. Qed.

Lemma pairs_database c ps : database (foldl add_pair c ps) = database c.
Proof.
  revert c. induction ps as [|p ps IH]; intros c; simpl; [done|].
  by rewrite IH, add_pair_database.
Qed.

Lemma pairs_relationships c ps :
  relationships (foldl add_pair c ps) =
  relationships c ++ (unqualified <$> surviving (database c) ps).
Proof.
  revert c. induction ps as [|[tbl col] ps IH]; intros c.
  - simpl. by rewrite app_nil_r.
  - rewrite foldl_step, IH, add_pair_database. unfold surviving, add_pair.
    rewrite filter_cons. simpl. case_bool_decide as Hd.
    + rewrite decide_True by done. rewrite fmap_cons. cbn [relationships].
      by rewrite <-app_assoc.
    + rewrite decide_False; [done|]. by intros ?.
Qed.

(** *** FROM and JOIN *)

Lemma add_clause_relationships c m :
  relationships (add_clause U c m) = relationships c.
Proof. destruct m as [p tbl]. unfold add_clause. by destruct (not_reserved U tbl). Qed.

Lemma add_clause_column c m : column (add_clause U c m) = column c.
Proof. destruct m as [p tbl]. unfold add_clause. by destruct (not_reserved U tbl). Qed.

Lemma add_clause_grows c m : sets_grow c (add_clause U c m).
Proof.
  destruct m as [p tbl]. unfold add_clause, sets_grow.
  destruct (not_reserved U tbl); simpl; [|done].
  destruct (truthy p); set_solver.
Qed.

Lemma grow_closed c c' :
  sets_grow c c' → relationships c' = relationships c →
  rel_closed c → rel_closed c'.
Proof.
  unfold sets_grow, rel_closed. intros (Hd & Ht & Hc) -> H db tbl col Hin.
  specialize (H _ _ _ Hin). set_solver.
Qed.

Lemma add_clause_closed c m : rel_closed c → rel_closed (add_clause U c m).
Proof.
  apply grow_closed; [apply add_clause_grows|apply add_clause_relationships].
Qed.

Lemma clauses_relationships c ms :
  relationships (foldl (add_clause U) c ms) = relationships c.
Proof.
  revert c. induction ms as [|m ms IH]; intros c; simpl; [done|].
  by rewrite IH, add_clause_relationships.
Qed.

Lemma clauses_column c ms : column (foldl (add_clause U) c ms) = column c.
Proof.
  revert c. induction ms as [|m ms IH]; intros c; simpl; [done|].
  by rewrite IH, add_clause_column.
Qed.

(** *** SELECT list *)

Lemma add_column_grows c col : sets_grow c (add_column c col).
Proof. unfold sets_grow; simpl. set_solver. Qed.

Lemma add_column_closed c col : rel_closed c → rel_closed (add_column c col).
Proof. by apply grow_closed; [apply add_column_grows|]. Qed.

Lemma columns_fields c cols :
  relationships (foldl add_column c cols) = relationships c ∧
  database (foldl add_column c cols) = database c ∧
  table (foldl add_column c cols) = table c.
Proof.
  revert c. induction cols as [|col cols IH]; intros c; simpl; [done|].
  destruct (IH (add_column c col)) as (-> & -> & ->). done.
Qed.

(** *** The whole extraction *)

Lemma select_columns_ok select_matches :
  select_columns U select_matches = Ok (columns_of U select_matches).
Proof. by destruct select_matches. Qed.

(** [extract_sql_components] never raises. *)
Lemma extract_ok content :
  extract_sql_components U content = Ok (file_catalog U content).
Proof. unfold extract_sql_components. by rewrite select_columns_ok. Qed.

Lemma after_clauses_relationships n :
  relationships (after_clauses U n) =
  findall3 U false db_table_column_pattern n ++
  (unqualified <$>
     surviving (database (after_triples U n))
       (findall2 U false table_column_pattern n)).
Proof.
  unfold after_clauses. rewrite !clauses_relationships.
  unfold after_pairs. rewrite pairs_relationships.
  unfold after_triples at 1. by rewrite triples_relationships.
Qed.

Lemma after_clauses_closed n : rel_closed (after_clauses U n).
Proof.
  unfold after_clauses, after_pairs, after_triples.
  repeat (apply foldl_invariant;
          [|auto using add_clause_closed, add_pair_closed, add_triple_closed]).
  by intros db tbl col ?%elem_of_nil.
Qed.

Lemma after_clauses_named n : rel_named (after_clauses U n).
Proof.
  intros db tbl col. rewrite after_clauses_relationships, elem_of_app.
  intros [H|(p & [= -> -> ->] & Hp)%list_elem_of_fmap].
  - by apply findall3_triple_nonempty in H as (_ & ? & _).
  - apply list_elem_of_filter in Hp as [_ Hp]. destruct p as [t c].
    by apply findall2_pair_nonempty in Hp as [? _].
Qed.

Lemma file_catalog_relationships content :
  relationships (file_catalog U content) =
  relationships (after_clauses U (normalize U content)).
Proof. unfold file_catalog. apply columns_fields. Qed.

Lemma file_catalog_closed content : rel_closed (file_catalog U content).
Proof.
  unfold file_catalog. apply foldl_invariant;
    [apply after_clauses_closed|auto using add_column_closed].
Qed.

Lemma file_catalog_named content : rel_named (file_catalog U content).
Proof.
  intros db tbl col. rewrite file_catalog_relationships.
  apply after_clauses_named.
Qed.

End Aggregation.

(** ** Merging *)

Section Merging.
Context (U : unicode_db).

Lemma merge_files_ok all contents :
  merge_files U all contents =
  Ok (foldl merge all (file_catalog U <$> contents)).
Proof.
  revert all. induction contents as [|content rest IH]; intros all; [done|].
  simpl. rewrite extract_ok. simpl. apply IH.
Qed.

Lemma process_sql_folder_ok folder :
  process_sql_folder U folder =
  Ok (merge_all (file_catalog U <$> (snd <$> sql_files folder))).
Proof. apply merge_files_ok. Qed.

Lemma foldl_merge_fields all cats :
  database (foldl merge all cats) = database all ∪ ⋃ (database <$> cats) ∧
  table (foldl merge all cats) = table all ∪ ⋃ (table <$> cats) ∧
  column (foldl merge all cats) = column all ∪ ⋃ (column <$> cats) ∧
  relationships (foldl merge all cats) =
    relationships all ++ concat (relationships <$> cats).
Proof.
  revert all. induction cats as [|c cats IH]; intros all.
  - simpl. rewrite app_nil_r. set_solver.
  - rewrite foldl_step. destruct (IH (merge all c)) as (-> & -> & -> & ->).
    simpl. rewrite <-app_assoc. set_solver.
Qed.

Lemma merge_all_fields cats :
  database (merge_all cats) = ⋃ (database <$> cats) ∧
  table (merge_all cats) = ⋃ (table <$> cats) ∧
  column (merge_all cats) = ⋃ (column <$> cats) ∧
  relationships (merge_all cats) = concat (relationships <$> cats).
Proof.
  destruct (foldl_merge_fields empty_catalog cats) as (Hd & Ht & Hc & Hr).
  unfold merge_all. rewrite Hd, Ht, Hc, Hr. simpl. set_solver.
Qed.

Lemma merge_closed c1 c2 :
  rel_closed c1 → rel_closed c2 → rel_closed (merge c1 c2).
Proof.
  unfold rel_closed; simpl. intros H1 H2 db tbl col.
  rewrite elem_of_app. intros [H|H].
  - specialize (H1 _ _ _ H). set_solver.
  - specialize (H2 _ _ _ H). set_solver.
Qed.

Lemma merge_named c1 c2 :
  rel_named c1 → rel_named c2 → rel_named (merge c1 c2).
Proof.
  unfold rel_named; simpl. intros H1 H2 db tbl col.
  rewrite elem_of_app. intros [H|H]; eauto.
Qed.

Lemma merge_all_invariant (P : catalog → Prop) cats :
  P empty_catalog → (∀ c1 c2, P c1 → P c2 → P (merge c1 c2)) →
  Forall P cats → P (merge_all cats).
Proof.
  intros H0 Hm Hcats. unfold merge_all. revert H0. generalize empty_catalog.
  induction Hcats as [|c cats Hc _ IH]; intros acc Hacc; simpl; auto.
Qed.

Lemma empty_closed : rel_closed empty_catalog.
Proof. by intros db tbl col ?%elem_of_nil. Qed.

Lemma empty_named : rel_named empty_catalog.
Proof. by intros db tbl col ?%elem_of_nil. Qed.

Lemma concat_Permutation_proper {A} (ls ks : list (list A)) :
  ls ≡ₚ ks → concat ls ≡ₚ concat ks.
Proof.
  induction 1 as [|l ls ks _ IH|l k ls|ls ks ms _ IH1 _ IH2]; simpl.
  - done.
  - by rewrite IH.
  - rewrite !app_assoc. by rewrite (Permutation_app_comm l k).
  - by rewrite IH1.
Qed.

Lemma union_list_Permutation (Xs Ys : list (gset text)) :
  Xs ≡ₚ Ys → ⋃ Xs = ⋃ Ys.
Proof.
  induction 1 as [|X Xs Ys _ IH|X Y Xs|Xs Ys Zs _ IH1 _ IH2]; simpl.
  - done.
  - by rewrite IH.
  - set_solver.
  - by rewrite IH1.
Qed.

(** What [table_db_pairs] collects. *)
Lemma table_db_pairs_elem c tbl db :
  (tbl, db) ∈ table_db_pairs c ↔
  db ≠ [] ∧ tbl ≠ [] ∧ ∃ col, (db, tbl, col) ∈ relationships c.
Proof.
  unfold table_db_pairs.
  assert (∀ rels (acc : gset (text * text)),
    (tbl, db) ∈ foldl add_table_db acc rels ↔
    (tbl, db) ∈ acc ∨
    (db ≠ [] ∧ tbl ≠ [] ∧ ∃ col, (db, tbl, col) ∈ rels)) as Hfold.
  { induction rels as [|[[d t] k] rels IH]; intros acc.
    - simpl. split; [auto|]. intros [?|(_ & _ & col & []%elem_of_nil)]; done.
    - rewrite foldl_step, IH. unfold add_table_db. split.
      + intros [Hin|(Hd & Ht & col & Hin)].
        * destruct d, t; simpl in Hin; auto.
          apply elem_of_union in Hin as [[= -> ->]%elem_of_singleton|Hin];
            [|auto].
          right. repeat split; [done..|]. exists k. left.
        * right. repeat split; [done..|]. exists col. by right.
      + intros [Hin|(Hd & Ht & col & Hin)].
        * left. destruct d, t; simpl; set_solver.
        * apply elem_of_cons in Hin as [[= <- <- <-]|Hin].
          -- left. destruct db, tbl; simpl; set_solver.
          -- right. eauto. }
  rewrite Hfold. set_solver.
Qed.

End Merging.

(** ** The normalizer *)

Section NormalizerFacts.
Context (U : unicode_db).

Lemma or_else_None_r {A} (x : option A) : or_else x None = x.
Proof. by destruct x. Qed.

Lemma star_lazy_line {A} s (K : text → option A) (f : text → A) :
  (∀ s', K s' = match s' with
                | c :: s'' => if (c =? NL)%N then Some (f s'') else None
                | [] => None
                end) →
  star_lazy (in_atom U Dot) s K = f <$> after_line s.
Proof.
  intros HK. induction s as [|c s IH]; simpl; rewrite HK; [done|].
  destruct (c =? NL)%N; simpl; [done|]. apply IH.
Qed.

Lemma star_lazy_block {A} s (K : text → option A) (f : text → A) :
  (∀ s', K s' = match s' with
                | c1 :: c2 :: s'' =>
                    if ((c1 =? chr "*") && (c2 =? chr "/"))%N
                    then Some (f s'') else None
                | _ => None
                end) →
  star_lazy (in_atom U AnyChar) s K = f <$> after_close s.
Proof.
  intros HK. induction s as [|c1 s IH]; [simpl; by rewrite HK|].
  cbn [star_lazy in_atom after_close]. rewrite HK.
  destruct s as [|c2 s]; [cbn; by rewrite HK|].
  destruct ((c1 =? chr "*") && (c2 =? chr "/"))%N; [done|]. apply IH.
Qed.

Lemma match_at_comment s :
  match_at U false comment_pattern s = found s <$> comment_token s.
Proof.
  destruct s as [|c1 s1]; [done|].
  unfold match_at, comment_pattern, comment_token, L.
  destruct s1 as [|c2 s2].
  - cbn -[N.eqb length chr NL TAB].
    destruct (N.eqb_spec c1 NL) as [->|]; [done|].
    destruct (N.eqb_spec c1 TAB) as [->|]; [done|].
    by destruct (c1 =? chr "-")%N, (c1 =? chr "/")%N.
  - cbn -[N.eqb length star_lazy chr NL TAB].
    rewrite (star_lazy_line _ _ (found (c1 :: c2 :: s2))) by (by intros [|??]).
    rewrite (star_lazy_block _ _ (found (c1 :: c2 :: s2))).
    2:{ intros [|c [|c' ?]]; cbn -[N.eqb length chr]; [done|..];
          by destruct (c =? chr "*")%N; try destruct (c' =? chr "/")%N. }
    destruct (N.eqb_spec c1 NL) as [->|]; [done|].
    destruct (N.eqb_spec c1 TAB) as [->|]; [done|].
    cbn -[N.eqb length chr after_line after_close].
    rewrite !or_else_None_r.
    destruct (N.eqb_spec c1 (chr "-")) as [->|].
    { destruct (c2 =? chr "-")%N; [|done].
      cbn -[N.eqb length after_line after_close]. by destruct (after_line s2). }
    by destruct (c1 =? chr "/")%N, (c2 =? chr "-")%N, (c2 =? chr "*")%N.
Qed.

Lemma star_greedy_total {A} p s (f : text → A) :
  star_greedy p s (λ s', Some (f s')) = Some (f (lstrip p s)).
Proof.
  induction s as [|c s IH]; simpl; [done|].
  destruct (p c); [|done]. by rewrite IH.
Qed.

Lemma match_at_whitespace s :
  match_at U false whitespace_pattern s =
  found s <$> match s with
              | c :: s' =>
                  if is_space U c then Some (lstrip (is_space U) s') else None
              | [] => None
              end.
Proof.
  destruct s as [|c s']; [done|].
  unfold match_at, whitespace_pattern. cbn -[length is_space star_greedy].
  destruct (is_space U c); [|done].
  by rewrite (star_greedy_total _ _ (found (c :: s'))).
Qed.

(** How [re.sub] proceeds, for a pattern whose match at a position is
    described by [tok]: the text behind the match, if there is one. *)
Lemma sub_step r repl (tok : text → option text) :
  (∀ s, match_at U false r s = found s <$> tok s) →
  (∀ s rest, tok s = Some rest → ∃ pre, pre ≠ [] ∧ s = pre ++ rest) →
  ∀ s, sub U r repl s =
       match tok s with
       | Some rest => repl ++ sub U r repl rest
       | None => match s with
                 | [] => []
                 | c :: s' => c :: sub U r repl s'
                 end
       end.
Proof.
  intros Hr Htok s. unfold sub.
  destruct (tok s) as [rest|] eqn:E.
  - destruct (Htok _ _ E) as (pre & Hpre & ->).
    destruct pre as [|c pre]; [done|]. simpl in *.
    rewrite Hr, E. simpl. rewrite length_app.
    replace (S (length pre + length rest) - length rest)
      with (S (length pre)) by lia.
    simpl. rewrite scan_skip, length_app.
    rewrite bool_decide_eq_true_2 by lia. by rewrite drop_app_length.
  - destruct s as [|c s']; simpl; by rewrite Hr, E.
Qed.

Lemma after_line_suffix s rest :
  after_line s = Some rest → ∃ pre, pre ≠ [] ∧ s = pre ++ rest.
Proof.
  revert rest. induction s as [|c s IH]; intros rest; simpl; [done|].
  destruct (c =? NL)%N.
  - intros [= <-]. by exists [c].
  - intros (pre & _ & ->)%IH. by exists (c :: pre).
Qed.

Lemma after_close_suffix s rest :
  after_close s = Some rest → ∃ pre, pre ≠ [] ∧ s = pre ++ rest.
Proof.
  revert rest. induction s as [|c1 s IH]; intros rest; [done|].
  cbn [after_close]. destruct s as [|c2 s]; [done|].
  destruct ((c1 =? chr "*") && (c2 =? chr "/"))%N.
  - intros [= <-]. by exists [c1; c2].
  - intros (pre & _ & ->)%IH. by exists (c1 :: pre).
Qed.

Lemma comment_token_suffix s rest :
  comment_token s = Some rest → ∃ pre, pre ≠ [] ∧ s = pre ++ rest.
Proof.
  destruct s as [|c1 s1]; [done|]. cbn [comment_token].
  destruct ((c1 =? NL) || (c1 =? TAB))%N.
  { intros [= <-]. by exists [c1]. }
  destruct s1 as [|c2 s2]; [done|].
  destruct ((c1 =? chr "-") && (c2 =? chr "-"))%N.
  { intros (pre & _ & ->)%after_line_suffix. by exists (c1 :: c2 :: pre). }
  destruct ((c1 =? chr "/") && (c2 =? chr "*"))%N; [|done].
  intros (pre & _ & ->)%after_close_suffix. by exists (c1 :: c2 :: pre).
Qed.

Lemma lstrip_suffix p s : ∃ pre, s = pre ++ lstrip p s.
Proof.
  induction s as [|c s [pre IH]]; simpl; [by exists []|].
  destruct (p c); [|by exists []]. exists (c :: pre). simpl. by f_equal.
Qed.

Lemma lstrip_length p s : length (lstrip p s) ≤ length s.
Proof.
  destruct (lstrip_suffix p s) as [pre Hpre]. rewrite Hpre at 2.
  rewrite length_app. lia.
Qed.

(** The two substitutions of the normalizer, step by step. *)
Lemma sub_comment s :
  sub U comment_pattern [SP] s =
  match comment_token s with
  | Some rest => SP :: sub U comment_pattern [SP] rest
  | None => match s with
            | [] => []
            | c :: s' => c :: sub U comment_pattern [SP] s'
            end
  end.
Proof.
  apply (sub_step comment_pattern [SP] comment_token);
    [apply match_at_comment|apply comment_token_suffix].
Qed.

Lemma squeeze_lstrip s :
  squeeze U true s = squeeze U false (lstrip (is_space U) s).
Proof.
  induction s as [|c s IH]; simpl; [done|].
  destruct (is_space U c) eqn:E; simpl; [done|]. by rewrite E.
Qed.

Lemma sub_whitespace s :
  sub U whitespace_pattern [SP] s = squeeze U false s.
Proof.
  remember (length s) as n eqn:Hn. revert s Hn.
  induction n as [n IH] using lt_wf_ind. intros s ->.
  rewrite (sub_step whitespace_pattern [SP]
             (λ s, match s with
                   | c :: s' =>
                       if is_space U c then Some (lstrip (is_space U) s')
                       else None
                   | [] => None
                   end)); [|apply match_at_whitespace|].
  - destruct s as [|c s']; [done|]. simpl.
    destruct (is_space U c); simpl.
    + rewrite squeeze_lstrip. f_equal.
      eapply IH; [|done]. pose proof (lstrip_length (is_space U) s').
      simpl. lia.
    + f_equal. eapply IH; [|done]. simpl. lia.
  - intros [|c s'] rest; [done|]. destruct (is_space U c); [|done].
    intros [= <-]. destruct (lstrip_suffix (is_space U) s') as [pre Hpre].
    exists (c :: pre). split; [done|]. simpl. by f_equal.
Qed.








End NormalizerFacts.

(** * The claims *)

Section Claims.
Context (U : unicode_db).

(** C1.  A pair match [X.Y] whose [X] is one of the database names that
    the triple pass found in the whole text is discarded.  The database set
    the pair loop consults is the one the triple loop left, it does not
    change during the pair loop, and on such a pair the loop body returns
    the catalog unchanged: no identifier is added and no [('', X, Y)] is
    appended, so the catalog of the file holds no such relationship.  For
    [orders.customers.id] the catalog holds the one triple and nothing
    else. *)
Theorem C1_pair_behind_database_discarded :
  (∀ content X Y,
     let n := normalize U content in
     let dbs : gset text :=
       list_to_set ((λ m, m.1.1) <$> findall3 U false db_table_column_pattern n) in
     X ∈ dbs →
     database (after_triples U n) = dbs ∧
     (∀ seen, database (foldl add_pair (after_triples U n) seen) = dbs) ∧
     (∀ c, database c = dbs → add_pair c (X, Y) = c) ∧
     ∃ cat, extract_sql_components U content = Ok cat ∧
            ([], X, Y) ∉ relationships cat) ∧
  extract_sql_components U (text_of "orders.customers.id") =
    Ok {| database := {[text_of "orders"]};
          table := {[text_of "customers"]};
          column := {[text_of "id"]};
          relationships :=
            [(text_of "orders", text_of "customers", text_of "id")] |}.
Proof.
  split; [|by vm_compute].
  intros content X Y n dbs HX.
  assert (database (after_triples U n) = dbs) as Hdbs.
  { unfold after_triples, dbs. rewrite triples_database. simpl.
    by rewrite (right_id_L ∅ (∪)). }
  split; [done|]. split; [|split].
  - intros seen. by rewrite pairs_database.
  - intros c Hc. apply add_pair_discard. by rewrite Hc.
  - exists (file_catalog U content). split; [apply extract_ok|].
    rewrite file_catalog_relationships, after_clauses_relationships.
    fold n. rewrite Hdbs, elem_of_app. intros [Hin|Hin].
    + by apply findall3_triple_nonempty in Hin as [? _].
    + apply list_elem_of_fmap in Hin as ([t c] & [= <- <-] & Hin).
      by apply list_elem_of_filter in Hin as [Hin _].
Qed.


(** C3.  In the catalog merged from any folder, [table_db_pairs] holds
    exactly the [(table, database)] pairs of the relationships whose
    database is not empty, and each of its entries has its table in the
    [table] set and its database in the [database] set. *)
Theorem C3_table_db_pairs_of_merged_catalog :
  ∀ folder, ∃ merged,
    process_sql_folder U folder = Ok merged ∧
    (∀ tbl db,
       (tbl, db) ∈ table_db_pairs merged ↔
       db ≠ [] ∧ ∃ col, (db, tbl, col) ∈ relationships merged) ∧
    (∀ tbl db,
       (tbl, db) ∈ table_db_pairs merged →
       tbl ∈ table merged ∧ db ∈ database merged).
Proof.
  intros folder. eexists. split; [apply process_sql_folder_ok|].
  set (merged := merge_all _).
  assert (rel_closed merged ∧ rel_named merged) as [Hclosed Hnamed].
  { split; apply merge_all_invariant;
      auto using empty_closed, empty_named, merge_closed, merge_named.
    - apply Forall_fmap, Forall_true. intros ?. apply file_catalog_closed.
    - apply Forall_fmap, Forall_true. intros ?. apply file_catalog_named. }
  split; intros tbl db; rewrite table_db_pairs_elem.
  - split; [naive_solver|]. intros (Hdb & col & Hin).
    split_and!; [done|by eapply Hnamed|by exists col].
  - intros (Hdb & _ & col & Hin).
    destruct (Hclosed _ _ _ Hin) as ([?|?] & ? & _); done.
Qed.

(** C5.  Extraction never raises: for every text there is a catalog that
    it returns.  A text without any match, the empty text among them,
    gives the empty catalog, and an empty list of SELECT matches gives no
    columns instead of an index error. *)
Theorem C5_extraction_total :
  (∀ content, ∃ cat, extract_sql_components U content = Ok cat) ∧
  (∀ folder, ∃ cat, process_sql_folder U folder = Ok cat) ∧
  extract_sql_components U [] = Ok empty_catalog ∧
  extract_sql_components U (text_of ";") = Ok empty_catalog ∧
  extract_sql_components U [0; 1; 127; 46; 46; 27; 7]%N = Ok empty_catalog ∧
  select_columns U [] = Ok [].
Proof.
  split_and!; try by vm_compute.
  - intros content. eexists. apply extract_ok.
  - intros folder. eexists. apply process_sql_folder_ok.
Qed.

(** C6.  The relationship list of a file's catalog is the list of triple
    matches followed by the surviving pair matches with an empty database.
    The body of the FROM and JOIN loops leaves the relationship list and
    the column set as they are and only adds to the table and database
    sets; the body of the SELECT loop leaves the relationship list, the
    database set and the table set as they are and only adds to the column
    set. *)
Theorem C6_relationships_from_triples_and_pairs :
  (∀ content, ∃ cat,
     extract_sql_components U content = Ok cat ∧
     let n := normalize U content in
     relationships cat =
       findall3 U false db_table_column_pattern n ++
       (unqualified <$>
          surviving (database (after_triples U n))
            (findall2 U false table_column_pattern n)) ∧
     relationships cat = relationships (after_pairs U n)) ∧
  (∀ c m,
     relationships (add_clause U c m) = relationships c ∧
     column (add_clause U c m) = column c ∧
     database c ⊆ database (add_clause U c m) ∧
     table c ⊆ table (add_clause U c m)) ∧
  (∀ c col,
     relationships (add_column c col) = relationships c ∧
     database (add_column c col) = database c ∧
     table (add_column c col) = table c ∧
     column (add_column c col) = {[col]} ∪ column c).
Proof.
  split_and!.
  - intros content. exists (file_catalog U content).
    split; [apply extract_ok|]. intros n.
    rewrite file_catalog_relationships. fold n.
    split; [apply after_clauses_relationships|].
    unfold after_clauses. by rewrite !clauses_relationships.
  - intros c m. destruct (add_clause_grows U c m) as (? & ? & _).
    by rewrite add_clause_relationships, add_clause_column.
  - done.
Qed.

(** C7.  Merging any list of catalogs gives the unions of their database,
    table and column sets and the concatenation of their relationship
    lists, so that the merged list is as long as the lists together; and
    [process_sql_folder] returns this merge of the catalogs of the folder's
    SQL files, in the order of the listing. *)
Theorem C7_merge_is_union_and_concatenation :
  (∀ cats,
     database (merge_all cats) = ⋃ (database <$> cats) ∧
     table (merge_all cats) = ⋃ (table <$> cats) ∧
     column (merge_all cats) = ⋃ (column <$> cats) ∧
     relationships (merge_all cats) = concat (relationships <$> cats) ∧
     length (relationships (merge_all cats)) =
       sum_list (length <$> (relationships <$> cats))) ∧
  (∀ folder, ∃ cats,
     Forall2 (λ f cat, extract_sql_components U f.2 = Ok cat)
       (sql_files folder) cats ∧
     process_sql_folder U folder = Ok (merge_all cats)).
Proof.
  split.
  - intros cats. destruct (merge_all_fields cats) as (-> & -> & -> & ->).
    split_and!; try done. induction cats as [|c cats IH]; [done|].
    rewrite !fmap_cons. simpl. by rewrite length_app, IH.
  - intros folder. exists (file_catalog U <$> (snd <$> sql_files folder)).
    split; [|apply process_sql_folder_ok].
    rewrite <-list_fmap_compose. apply Forall2_fmap_r, Forall_Forall2_diag.
    apply Forall_true. intros f. apply extract_ok.
Qed.

(** C8.  Two listings of the same files, one a permutation of the other,
    give merged catalogs with the same database, table and column sets and
    with relationship lists that are permutations of each other. *)
Theorem C8_listing_order_irrelevant folder1 folder2 :
  folder1 ≡ₚ folder2 →
  ∃ merged1 merged2,
    process_sql_folder U folder1 = Ok merged1 ∧
    process_sql_folder U folder2 = Ok merged2 ∧
    database merged1 = database merged2 ∧
    table merged1 = table merged2 ∧
    column merged1 = column merged2 ∧
    relationships merged1 ≡ₚ relationships merged2.
Proof.
  intros Hperm. do 2 eexists.
  split; [apply process_sql_folder_ok|]. split; [apply process_sql_folder_ok|].
  assert (file_catalog U <$> (snd <$> sql_files folder1) ≡ₚ
          file_catalog U <$> (snd <$> sql_files folder2)) as Hcats.
  { unfold sql_files. by rewrite Hperm. }
  destruct (merge_all_fields (file_catalog U <$> (snd <$> sql_files folder1)))
    as (-> & -> & -> & ->).
  destruct (merge_all_fields (file_catalog U <$> (snd <$> sql_files folder2)))
    as (-> & -> & -> & ->).
  split_and!.
  - apply union_list_Permutation. by rewrite Hcats.
  - apply union_list_Permutation. by rewrite Hcats.
  - apply union_list_Permutation. by rewrite Hcats.
  - apply concat_Permutation_proper. by rewrite Hcats.
Qed.

(** C9.  In the catalog of a file and in the merged catalog of a folder,
    every relationship [(db, table, column)] has [db] empty or in the
    [database] set, [table] in the [table] set and [column] in the
    [column] set. *)
Theorem C9_relationships_name_members :
  (∀ content, ∃ cat,
     extract_sql_components U content = Ok cat ∧
     ∀ db tbl col, (db, tbl, col) ∈ relationships cat →
       (db = [] ∨ db ∈ database cat) ∧ tbl ∈ table cat ∧ col ∈ column cat) ∧
  (∀ folder, ∃ merged,
     process_sql_folder U folder = Ok merged ∧
     ∀ db tbl col, (db, tbl, col) ∈ relationships merged →
       (db = [] ∨ db ∈ database merged) ∧ tbl ∈ table merged ∧
       col ∈ column merged).
Proof.
  split.
  - intros content. eexists. split; [apply extract_ok|].
    apply file_catalog_closed.
  - intros folder. eexists. split; [apply process_sql_folder_ok|].
    apply (merge_all_invariant rel_closed);
      auto using empty_closed, merge_closed.
    apply Forall_fmap, Forall_true. intros ?. apply file_catalog_closed.
Qed.

(** C10.  The reserved words are checked only on the table of a FROM or
    JOIN match and on the column of a SELECT-list fragment; the bodies of
    the triple and the pair loops add their identifiers unchecked.  For
    [t.where] the catalog has the column [where], which upper-cases to a
    reserved word, and the unqualified relationship that carries it. *)
Theorem C10_reserved_words_pass_qualified_matches :
  extract_sql_components U (text_of "t.where") =
    Ok {| database := ∅;
          table := {[text_of "t"]};
          column := {[text_of "where"]};
          relationships := [([], text_of "t", text_of "where")] |} ∧
  upper U (text_of "where") = text_of "WHERE" ∧
  not_reserved U (text_of "where") = false ∧
  extract_sql_components U (text_of "select.from.join") =
    Ok {| database := {[text_of "select"]};
          table := {[text_of "from"]};
          column := {[text_of "join"]};
          relationships :=
            [(text_of "select", text_of "from", text_of "join")] |} ∧
  (∀ c db tbl col,
     db ∈ database (add_triple c (db, tbl, col)) ∧
     tbl ∈ table (add_triple c (db, tbl, col)) ∧
     col ∈ column (add_triple c (db, tbl, col)) ∧
     (db, tbl, col) ∈ relationships (add_triple c (db, tbl, col))) ∧
  (∀ c tbl col,
     tbl ∉ database c →
     tbl ∈ table (add_pair c (tbl, col)) ∧
     col ∈ column (add_pair c (tbl, col)) ∧
     ([], tbl, col) ∈ relationships (add_pair c (tbl, col))) ∧
  (∀ c db_prefix tbl,
     not_reserved U tbl = false → add_clause U c (db_prefix, tbl) = c) ∧
  (∀ col name, name ∈ select_column U col → not_reserved U name = true).
Proof.
  split_and!; try by vm_compute.
  - intros c db tbl col. simpl. set_solver.
  - intros c tbl col Hdb. unfold add_pair.
    rewrite bool_decide_eq_true_2 by done. simpl. set_solver.
  - intros c db_prefix tbl Hres. unfold add_clause. by rewrite Hres.
  - intros col name. unfold select_column.
    destruct (search U column_pattern (strip U col)) as [m|];
      [|by intros ?%elem_of_nil].
    destruct (m_groups m 2) as [column_name|]; [|by intros ?%elem_of_nil].
    destruct (truthy column_name && not_reserved U column_name) eqn:E;
      [|by intros ?%elem_of_nil].
    intros ->%list_elem_of_singleton. by apply andb_prop in E as [_ ?].
Qed.

(** C4.  The scenario of the specification: one database, [sales]; the
    tables [orders] and [customers] among the tables; the columns [id],
    [total] and [cust_id] among the columns; and the unqualified
    relationship [('', 'o', 'id')], whose table is the alias [o] as
    written: no relationship puts [id] under [orders]. *)
Theorem C4_scenario :
  ∃ cat,
    extract_sql_components U
      (text_of "SELECT o.id, o.total AS amt FROM sales.orders o JOIN sales.customers c ON o.cust_id = c.id;")
      = Ok cat ∧
    database cat = {[text_of "sales"]} ∧
    {[text_of "orders"; text_of "customers"]} ⊆ table cat ∧
    {[text_of "id"; text_of "total"; text_of "cust_id"]} ⊆ column cat ∧
    ([], text_of "o", text_of "id") ∈ relationships cat ∧
    text_of "o" ∈ table cat ∧
    (∀ db, (db, text_of "orders", text_of "id") ∉ relationships cat) ∧
    relationships cat =
      [([], text_of "o", text_of "id");
       ([], text_of "o", text_of "total");
       ([], text_of "sales", text_of "orders");
       ([], text_of "sales", text_of "customers");
       ([], text_of "o", text_of "cust_id");
       ([], text_of "c", text_of "id")].
Proof.
  eexists. split; [by vm_compute|].
  split_and!; try by vm_compute.
  all: try compute_done.
  - intros db Hin. revert Hin. cbn [relationships].
    rewrite !elem_of_cons. intros H.
    repeat (destruct H as [[=]|H]). by apply elem_of_nil in H.
Qed.

End Claims.

(** C8 at a folder of two files, listed in both orders. *)
Lemma C8_listing_order_irrelevant_witness :
  let a := (text_of "a.sql", text_of "orders.customers.id") in
  let b := (text_of "b.sql", text_of "SELECT x FROM t") in
  [a; b] ≡ₚ [b; a] ∧
  ∃ merged1 merged2,
    process_sql_folder ascii_db [a; b] = Ok merged1 ∧
    process_sql_folder ascii_db [b; a] = Ok merged2 ∧
    database merged1 = database merged2 ∧
    table merged1 = table merged2 ∧
    column merged1 = column merged2 ∧
    relationships merged1 ≡ₚ relationships merged2.
Proof.
  intros a b. split; [apply perm_swap|].
  apply (C8_listing_order_irrelevant ascii_db [a; b] [b; a]). apply perm_swap.
Defined.

(** ** The claims at concrete inputs *)

(** C1 at [orders.customers.id]: [orders] is a database name, and no
    relationship puts [customers] under the table [orders]. *)
Lemma C1_pair_behind_database_discarded_witness :
  let content := text_of "orders.customers.id" in
  let dbs : gset text :=
    list_to_set ((λ m, m.1.1) <$>
      findall3 ascii_db false db_table_column_pattern
        (normalize ascii_db content)) in
  text_of "orders" ∈ dbs ∧
  ∃ cat, extract_sql_components ascii_db content = Ok cat ∧
         ([], text_of "orders", text_of "customers") ∉ relationships cat.
Proof.
  intros content dbs.
  assert (text_of "orders" ∈ dbs) as Hdb by compute_done.
  split; [exact Hdb|].
  destruct (proj1 (C1_pair_behind_database_discarded ascii_db)
              content (text_of "orders") (text_of "customers") Hdb)
    as (_ & _ & _ & Hcat).
  exact Hcat.
Defined.



(** C3 at a folder with one file. *)
Lemma C3_table_db_pairs_of_merged_catalog_witness :
  let folder := [(text_of "a.sql", text_of "orders.customers.id")] in
  ∃ merged,
    process_sql_folder ascii_db folder = Ok merged ∧
    (text_of "customers", text_of "orders") ∈ table_db_pairs merged ∧
    text_of "customers" ∈ table merged ∧
    text_of "orders" ∈ database merged.
Proof.
  intros folder.
  destruct (C3_table_db_pairs_of_merged_catalog ascii_db folder)
    as (merged & Hok & Hiff & Hmem).
  exists merged. split; [exact Hok|].
  assert ((text_of "customers", text_of "orders") ∈ table_db_pairs merged)
    as Hpair.
  { apply Hiff. split; [done|]. exists (text_of "id").
    vm_compute in Hok. injection Hok as <-. vm_compute. left. }
  split; [exact Hpair|]. exact (Hmem _ _ Hpair).
Defined.

(** C9 at [orders.customers.id]. *)
Lemma C9_relationships_name_members_witness :
  ∃ cat,
    extract_sql_components ascii_db (text_of "orders.customers.id") = Ok cat ∧
    (text_of "orders", text_of "customers", text_of "id") ∈ relationships cat ∧
    text_of "customers" ∈ table cat ∧ text_of "id" ∈ column cat.
Proof.
  destruct (proj1 (C9_relationships_name_members ascii_db)
              (text_of "orders.customers.id")) as (cat & Hok & Hrel).
  exists cat. split; [exact Hok|].
  assert ((text_of "orders", text_of "customers", text_of "id")
            ∈ relationships cat) as Hin.
  { vm_compute in Hok. injection Hok as <-. vm_compute. left. }
  split; [exact Hin|]. destruct (Hrel _ _ _ Hin) as (_ & Ht & Hc). by split.
Defined.

(** C10 at the table [WHERE] behind a FROM. *)
Lemma C10_reserved_words_pass_qualified_matches_witness :
  not_reserved ascii_db (text_of "WHERE") = false ∧
  add_clause ascii_db empty_catalog ([], text_of "WHERE") = empty_catalog.
Proof.
  assert (not_reserved ascii_db (text_of "WHERE") = false) as Hres
    by (vm_compute; reflexivity).
  split; [exact Hres|].
  destruct (C10_reserved_words_pass_qualified_matches ascii_db)
    as (_ & _ & _ & _ & _ & _ & Hclause & _).
  exact (Hclause empty_catalog [] (text_of "WHERE") Hres).
Defined.

(** ** The examples of the specification, run on the model *)

Example comment_stripping :
  normalize ascii_db two_lines = text_of "SELECT id FROM orders" ∧
  ∃ cat, extract_sql_components ascii_db two_lines = Ok cat ∧
         table cat = {[text_of "orders"]} ∧
         text_of "customers" ∉ table cat.
Proof.
  split; [by vm_compute|]. eexists. split; [by vm_compute|].
  split; [by vm_compute|]. compute_done.
Qed.

Example reserved_word_filtering :
  extract_sql_components ascii_db (text_of "SELECT a, b FROM WHERE") =
    Ok {| database := ∅; table := ∅;
          column := {[text_of "a"; text_of "b"]}; relationships := [] |}.
Proof. by vm_compute. Qed.

(** * Further properties: lemmas *)

(** ** The shape of normalized text *)

Section NormalizerShape.
Context (U : unicode_db).

Lemma lstrip_head p s c : head (lstrip p s) = Some c → p c = false.
Proof.
  induction s as [|x s IH]; simpl; [done|].
  destruct (p x) eqn:E; [done|]. by intros [= <-].
Qed.

Lemma lstrip_fixed p s :
  (∀ c, head s = Some c → p c = false) → lstrip p s = s.
Proof. destruct s as [|x s]; simpl; [done|]. intros H. by rewrite H. Qed.

Lemma rstrip_prefix p s : ∃ post, s = rstrip p s ++ post.
Proof.
  unfold rstrip. destruct (lstrip_suffix p (reverse s)) as [pre Hpre].
  exists (reverse pre). rewrite <-reverse_app, <-Hpre. by rewrite reverse_involutive.
Qed.

Lemma rstrip_last p s c : last (rstrip p s) = Some c → p c = false.
Proof. unfold rstrip. rewrite last_reverse. apply lstrip_head. Qed.

Lemma rstrip_fixed p s :
  (∀ c, last s = Some c → p c = false) → rstrip p s = s.
Proof.
  intros H. unfold rstrip. rewrite lstrip_fixed, reverse_involutive; [done|].
  intros c. rewrite head_reverse. apply H.
Qed.

(** [strip] keeps a middle part of the text. *)
Lemma strip_infix s : ∃ pre post, s = pre ++ strip U s ++ post.
Proof.
  unfold strip. destruct (lstrip_suffix (is_space U) s) as [pre Hpre].
  destruct (rstrip_prefix (is_space U) (lstrip (is_space U) s)) as [post Hpost].
  exists pre, post. by rewrite <-Hpost.
Qed.

Lemma strip_ends s c :
  (head (strip U s) = Some c → is_space U c = false) ∧
  (last (strip U s) = Some c → is_space U c = false).
Proof.
  unfold strip. split; [|apply rstrip_last].
  destruct (rstrip_prefix (is_space U) (lstrip (is_space U) s)) as [post Hpost].
  intros Hhd. apply (lstrip_head _ s). rewrite Hpost.
  by destruct (rstrip _ _).
Qed.

Lemma squeeze_elem b s c :
  c ∈ squeeze U b s → c = SP ∨ (c ∈ s ∧ is_space U c = false).
Proof.
  revert b. induction s as [|x s IH]; intros b; simpl; [by intros ?%elem_of_nil|].
  destruct (is_space U x) eqn:E.
  - rewrite elem_of_app. intros [H|H].
    + left. destruct b; [by apply elem_of_nil in H|].
      by apply list_elem_of_singleton in H.
    + destruct (IH _ H) as [?|[? ?]]; [by left|right]. split; [by right|done].
  - rewrite elem_of_cons. intros [->|H]; [right; split; [left|done]|].
    destruct (IH _ H) as [?|[? ?]]; [by left|right]. split; [by right|done].
Qed.

Lemma squeeze_length b s : length (squeeze U b s) ≤ length s.
Proof.
  revert b. induction s as [|x s IH]; intros b; simpl; [done|].
  destruct (is_space U x); [|simpl; specialize (IH false); lia].
  rewrite length_app. specialize (IH true). destruct b; simpl; lia.
Qed.

(** In squeezed text a space is never followed by a space, and text
    squeezed from inside a run does not begin with white space. *)
Lemma squeeze_spaced b s :
  (∀ i, squeeze U b s !! i = Some SP → squeeze U b s !! S i ≠ Some SP) ∧
  (b = true → ∀ c, head (squeeze U b s) = Some c → is_space U c = false).
Proof.
  revert b. induction s as [|x s IH]; intros b; simpl; [done|].
  destruct (is_space U x) eqn:E.
  - destruct (IH true) as [IHi IHh]. destruct b; simpl; [done|].
    split; [|done]. intros [|i]; simpl; [|apply IHi].
    intros _ Hhd. specialize (IHh eq_refl SP).
    rewrite <-head_lookup in Hhd. by specialize (IHh Hhd).
  - destruct (IH false) as [IHi _]. split.
    + intros [|i]; simpl; [|apply IHi]. by intros [= ->].
    + by intros _ c [= <-].
Qed.

Lemma sub_comment_elem s c :
  c ∈ sub U comment_pattern [SP] s → c = SP ∨ c ∈ s.
Proof.
  remember (length s) as n eqn:Hn. revert s Hn.
  induction n as [n IH] using lt_wf_ind. intros s ->.
  rewrite sub_comment. destruct (comment_token s) as [rest|] eqn:E.
  - destruct (comment_token_suffix _ _ E) as (pre & Hpre & ->).
    rewrite elem_of_cons. intros [->|H]; [by left|].
    eapply IH in H as [?|?]; [by left| |..|done].
    + right. rewrite elem_of_app. by right.
    + rewrite length_app. destruct pre; [done|]. simpl. lia.
  - destruct s as [|x s]; [by intros ?%elem_of_nil|].
    rewrite elem_of_cons. intros [->|H]; [right; left|].
    eapply IH in H as [?|?]; [by left| |..|done].
    + right. by right.
    + simpl. lia.
Qed.

Lemma sub_comment_length s :
  length (sub U comment_pattern [SP] s) ≤ length s.
Proof.
  remember (length s) as n eqn:Hn. revert s Hn.
  induction n as [n IH] using lt_wf_ind. intros s ->.
  rewrite sub_comment. destruct (comment_token s) as [rest|] eqn:E.
  - destruct (comment_token_suffix _ _ E) as (pre & Hpre & ->).
    destruct pre as [|x pre]; [done|]. simpl. rewrite length_app.
    assert (length (sub U comment_pattern [SP] rest) ≤ length rest).
    { eapply IH; [|done]. simpl. rewrite length_app. lia. }
    lia.
  - destruct s as [|x s]; [done|]. simpl.
    assert (length (sub U comment_pattern [SP] s) ≤ length s).
    { eapply IH; [|done]. simpl. lia. }
    lia.
Qed.

(** Text in which white space is single spaces between other characters is
    left alone by the white-space step. *)
Lemma squeeze_fixed b s :
  (∀ c, c ∈ s → is_space U c = true → c = SP) →
  (∀ i, s !! i = Some SP → s !! S i ≠ Some SP) →
  (b = true → ∀ c, head s = Some c → is_space U c = false) →
  squeeze U b s = s.
Proof.
  revert b. induction s as [|x s IH]; intros b Hsp Hadj Hhd; simpl; [done|].
  assert (∀ c, c ∈ s → is_space U c = true → c = SP) as Hsp'.
  { intros c Hc. apply Hsp. by right. }
  assert (∀ i, s !! i = Some SP → s !! S i ≠ Some SP) as Hadj'.
  { intros i. apply (Hadj (S i)). }
  destruct (is_space U x) eqn:E.
  - assert (x = SP) as -> by (apply Hsp; [left|done]).
    destruct b; [by specialize (Hhd eq_refl SP eq_refl)|]. simpl. f_equal.
    apply IH; [done..|]. intros _ c Hc.
    destruct (is_space U c) eqn:Ec; [|done].
    assert (c = SP) as -> by (apply Hsp'; [by apply head_Some_elem_of|done]).
    destruct (Hadj 0 eq_refl). simpl. by rewrite <-head_lookup.
  - f_equal. by apply IH.
Qed.

Lemma infix_lookup (pre mid post : text) i c :
  mid !! i = Some c → (pre ++ mid ++ post) !! (length pre + i) = Some c.
Proof.
  intros H. rewrite lookup_app_r by lia.
  replace (length pre + i - length pre) with i by lia.
  by apply lookup_app_l_Some.
Qed.

Lemma normalize_shape content :
  let out := normalize U content in
  (∀ c, c ∈ out → is_space U c = true → c = SP) ∧
  (∀ i, out !! i = Some SP → out !! S i ≠ Some SP) ∧
  (∀ c, head out = Some c → is_space U c = false) ∧
  (∀ c, last out = Some c → is_space U c = false).
Proof.
  intros out. subst out. unfold normalize. rewrite sub_whitespace.
  set (sq := squeeze U false _).
  destruct (strip_infix sq) as (pre & post & Hsq).
  split_and!.
  - intros c Hc Hsp.
    assert (c ∈ sq) as Hin.
    { rewrite Hsq, !elem_of_app. auto. }
    apply squeeze_elem in Hin as [?|[_ ?]]; [done|congruence].
  - intros i H1 H2.
    apply (infix_lookup pre _ post) in H1, H2. rewrite <-Hsq in H1, H2.
    replace (length pre + S i) with (S (length pre + i)) in H2 by lia.
    by destruct (proj1 (squeeze_spaced false _) _ H1).
  - intros c. apply strip_ends.
  - intros c. apply strip_ends.
Qed.

Lemma whitespace_step_fixed content :
  strip U (sub U whitespace_pattern [SP] (normalize U content)) =
  normalize U content.
Proof.
  destruct (normalize_shape content) as (Hsp & Hadj & Hhd & Hlast).
  rewrite sub_whitespace, squeeze_fixed; [|done..].
  unfold strip. rewrite lstrip_fixed by done. by apply rstrip_fixed.
Qed.

Lemma normalize_chars_length content :
  (∀ c, c ∈ normalize U content →
     c = SP ∨ (c ∈ content ∧ is_space U c = false)) ∧
  length (normalize U content) ≤ length content.
Proof.
  unfold normalize. rewrite sub_whitespace.
  set (sq := squeeze U false _).
  destruct (strip_infix sq) as (pre & post & Hsq). split.
  - intros c Hc.
    assert (c ∈ sq) as Hin.
    { rewrite Hsq, !elem_of_app. auto. }
    apply squeeze_elem in Hin as [?|[Hin ?]]; [by left|].
    apply sub_comment_elem in Hin as [->|?]; [by left|by right].
  - pose proof (squeeze_length false (sub U comment_pattern [SP] content)).
    pose proof (sub_comment_length content).
    assert (length (strip U sq) ≤ length sq).
    { rewrite Hsq at 2. rewrite !length_app. lia. }
    unfold sq in *. lia.
Qed.

End NormalizerShape.

(** ** What the patterns capture *)

Section Sources.
Context (U : unicode_db).

Lemma scan_elem_suffix {B} icase r (on_match : rx_match → list B) on_char n s x :
  x ∈ scan U icase r on_match on_char n s →
  (∃ m pre s0, s = pre ++ s0 ∧ match_at U icase r s0 = Some m ∧
               x ∈ on_match m) ∨
  (∃ c, c ∈ s ∧ x ∈ on_char c).
Proof.
  revert n. induction s as [|c s IH]; intros n.
  - destruct n; simpl; [|by intros ?%elem_of_nil].
    destruct (match_at U icase r []) as [m|] eqn:E;
      [|by intros ?%elem_of_nil].
    rewrite app_nil_r. intros Hx. left. by exists m, [], [].
  - assert (∀ k, x ∈ scan U icase r on_match on_char k s →
        (∃ m pre s0, c :: s = pre ++ s0 ∧ match_at U icase r s0 = Some m ∧
                     x ∈ on_match m) ∨
        (∃ c', c' ∈ c :: s ∧ x ∈ on_char c')) as IH'.
    { intros k [(m & pre & s0 & -> & ? & ?)|(c' & ? & ?)]%IH.
      - left. by exists m, (c :: pre), s0.
      - right. exists c'. split; [by right|done]. }
    destruct n as [|n]; simpl; [|apply IH'].
    destruct (match_at U icase r (c :: s)) as [m|] eqn:E.
    + rewrite !elem_of_app. intros [Hx|[Hx|Hx]].
      * left. by exists m, [], (c :: s).
      * destruct (m_len m); [|by apply elem_of_nil in Hx].
        right. exists c. split; [left|done].
      * by apply IH' in Hx.
    + rewrite elem_of_app. intros [Hx|Hx]; [|by apply IH' in Hx].
      right. exists c. split; [left|done].
Qed.

Lemma findall_elem_suffix icase r s m :
  m ∈ findall U icase r s →
  ∃ pre s0, s = pre ++ s0 ∧ match_at U icase r s0 = Some m.
Proof.
  intros [(m' & pre & s0 & -> & E & ->%list_elem_of_singleton)
         |(c & _ & []%elem_of_nil)]%scan_elem_suffix.
  by exists pre, s0.
Qed.

Lemma search_sound r s m :
  search U r s = Some m →
  ∃ pre s0, s = pre ++ s0 ∧ match_at U false r s0 = Some m.
Proof.
  induction s as [|c s IH]; simpl.
  - destruct (match_at U false r []) eqn:E; [|done].
    intros [= <-]. by exists [], [].
  - destruct (match_at U false r (c :: s)) eqn:E.
    + intros [= <-]. by exists [], (c :: s).
    + intros (pre & s0 & -> & ?)%IH. by exists (c :: pre), s0.
Qed.

Lemma lit_eq_exact p c : lit_eq U false p c = true → c = p.
Proof. unfold lit_eq. by intros ?%N.eqb_eq. Qed.

Lemma lit_eq_dot icase c :
  dot_plain U → lit_eq U icase (chr ".") c = true → c = chr ".".
Proof.
  intros Hdot. destruct icase; [|apply lit_eq_exact]. unfold lit_eq.
  destruct (is_ascii c) eqn:Ea; [|by rewrite Hdot].
  unfold ascii_lower, between. change (chr ".") with 46%N.
  intros H%N.eqb_eq. revert H. simpl.
  destruct (65 <=? c)%N eqn:E1, (c <=? 90)%N eqn:E2; simpl; try done.
  apply N.leb_le in E1, E2. lia.
Qed.

Lemma word_cons c cs :
  Forall (λ x, in_atom U Word x = true) (c :: cs) → word U (c :: cs).
Proof. by split. Qed.

Lemma word_not_dot w : word U w → chr "." ∉ w.
Proof.
  intros [_ Hw] Hin. rewrite Forall_forall in Hw.
  by specialize (Hw _ Hin).
Qed.

Lemma rstrip_dot w :
  word U w → rstrip (λ c, (c =? chr ".")%N) (w ++ [chr "."]) = w.
Proof.
  intros Hw. unfold rstrip. rewrite reverse_app. simpl.
  rewrite lstrip_fixed; [by rewrite reverse_involutive|].
  intros c Hc. rewrite head_reverse in Hc.
  apply N.eqb_neq. intros ->. apply (word_not_dot _ Hw).
  by apply last_Some_elem_of.
Qed.

Ltac inv_match_step :=
  match goal with
  | H : matches _ _ (Cat _ _) _ _ _ _ |- _ => inversion H; subst; clear H
  | H : matches _ _ (Group _ _) _ _ _ _ |- _ => inversion H; subst; clear H
  | H : matches _ _ (Plus _) _ _ _ _ |- _ => inversion H; subst; clear H
  | H : matches _ _ (LazyStar _) _ _ _ _ |- _ => inversion H; subst; clear H
  | H : matches _ _ (Lit _) _ _ _ _ |- _ => inversion H; subst; clear H
  | H : matches _ _ (Atom _) _ _ _ _ |- _ => inversion H; subst; clear H
  | H : matches _ _ (Opt _) _ _ _ _ |- _ => inversion H; subst; clear H
  end.

(** What the groups of a match of each pattern hold. *)
Lemma triple_match_words s m :
  match_at U false db_table_column_pattern s = Some m →
  word U (group_or_empty m 1) ∧ word U (group_or_empty m 2) ∧
  word U (group_or_empty m 3) ∧ chr "." ∈ s.
Proof.
  intros (s' & H & _)%match_at_sound. unfold group_or_empty.
  cbv [db_table_column_pattern seq L] in H. repeat inv_match_step.
  rewrite !app_comm_cons, !consumed_app. simpl.
  split_and!; try by apply word_cons.
  match goal with H : lit_eq U false _ ?x = true |- _ =>
    apply lit_eq_exact in H as -> end.
  set_solver.
Qed.

Lemma pair_match_words s m :
  match_at U false table_column_pattern s = Some m →
  word U (group_or_empty m 1) ∧ word U (group_or_empty m 2) ∧ chr "." ∈ s.
Proof.
  intros (s' & H & _)%match_at_sound. unfold group_or_empty.
  cbv [table_column_pattern seq L] in H. repeat inv_match_step.
  rewrite !app_comm_cons, !consumed_app. simpl.
  split_and!; try by apply word_cons.
  match goal with H : lit_eq U false _ ?x = true |- _ =>
    apply lit_eq_exact in H as -> end.
  set_solver.
Qed.

Lemma from_match_shape s m :
  match_at U true from_pattern s = Some m → clause_shape U s m.
Proof.
  intros (s' & H & _)%match_at_sound. unfold clause_shape, group_or_empty.
  cbv [from_pattern seq L kw text_of list_ascii_of_string map fmap list_fmap] in H.
  repeat inv_match_step.
  - rewrite !app_comm_cons, !consumed_app. simpl. split; [by apply word_cons|].
    right. rewrite (app_comm_cons _ (_ :: _)), (cons_middle _ (_ :: _)), !app_assoc.
    rewrite consumed_app. eexists (_ :: _), _.
    split_and!; [by apply word_cons|done|done|set_solver].
  - rewrite !app_comm_cons, !consumed_app. simpl. split; [by apply word_cons|by left].
Qed.

Lemma join_match_shape s m :
  match_at U true join_pattern s = Some m → clause_shape U s m.
Proof.
  intros (s' & H & _)%match_at_sound. unfold clause_shape, group_or_empty.
  cbv [join_pattern seq L kw text_of list_ascii_of_string map fmap list_fmap] in H.
  repeat inv_match_step.
  - rewrite !app_comm_cons, !consumed_app. simpl. split; [by apply word_cons|].
    right. rewrite (app_comm_cons _ (_ :: _)), (cons_middle _ (_ :: _)), !app_assoc.
    rewrite consumed_app. eexists (_ :: _), _.
    split_and!; [by apply word_cons|done|done|set_solver].
  - rewrite !app_comm_cons, !consumed_app. simpl. split; [by apply word_cons|by left].
Qed.

Lemma column_match_word s m name :
  match_at U false column_pattern s = Some m →
  m_groups m 2 = Some name → word U name.
Proof.
  intros (s' & H & _)%match_at_sound.
  cbv [column_pattern seq L] in H. repeat inv_match_step;
    rewrite !app_comm_cons, ?consumed_app; simpl;
    intros [= <-]; by apply word_cons.
Qed.

Lemma select_column_word col name :
  name ∈ select_column U col → word U name ∧ not_reserved U name = true.
Proof.
  unfold select_column.
  destruct (search U column_pattern (strip U col)) as [m|] eqn:Es;
    [|by intros ?%elem_of_nil].
  apply search_sound in Es as (pre & s0 & _ & Hm).
  destruct (m_groups m 2) as [column_name|] eqn:Eg; [|by intros ?%elem_of_nil].
  destruct (truthy column_name && not_reserved U column_name) eqn:E;
    [|by intros ?%elem_of_nil].
  intros ->%list_elem_of_singleton. apply andb_prop in E as [_ ?].
  split; [by eapply column_match_word|done].
Qed.

Lemma columns_of_word select_matches name :
  name ∈ columns_of U select_matches →
  word U name ∧ not_reserved U name = true.
Proof.
  destruct select_matches as [|first rest]; [by intros ?%elem_of_nil|].
  simpl. rewrite list_elem_of_In, in_flat_map.
  intros (col & _ & Hin). apply select_column_word with col.
  by apply list_elem_of_In.
Qed.

(** A match of a keyword pattern holds white space. *)
Lemma from_match_space s m :
  match_at U true from_pattern s = Some m →
  ∃ x, x ∈ s ∧ is_space U x = true.
Proof.
  intros (s' & H & _)%match_at_sound.
  cbv [from_pattern seq L kw text_of list_ascii_of_string map fmap list_fmap] in H.
  repeat inv_match_step;
    match goal with
    | H : Forall (λ x, in_atom U Space x = true) (?c :: _) |- _ =>
        apply Forall_cons in H as [H _]; exists c; split; [set_solver|done]
    end.
Qed.

Lemma join_match_space s m :
  match_at U true join_pattern s = Some m →
  ∃ x, x ∈ s ∧ is_space U x = true.
Proof.
  intros (s' & H & _)%match_at_sound.
  cbv [join_pattern seq L kw text_of list_ascii_of_string map fmap list_fmap] in H.
  repeat inv_match_step;
    match goal with
    | H : Forall (λ x, in_atom U Space x = true) (?c :: _) |- _ =>
        apply Forall_cons in H as [H _]; exists c; split; [set_solver|done]
    end.
Qed.

Lemma select_match_space s m :
  match_at U true select_pattern s = Some m →
  ∃ x, x ∈ s ∧ is_space U x = true.
Proof.
  intros (s' & H & _)%match_at_sound.
  cbv [select_pattern seq L kw text_of list_ascii_of_string map fmap list_fmap] in H.
  repeat inv_match_step;
    match goal with
    | H : Forall (λ x, in_atom U Space x = true) (?c :: _ ++ _ ++ _) |- _ =>
        apply Forall_cons in H as [H _]; exists c; split; [set_solver|done]
    | H : Forall (λ x, in_atom U Space x = true) (?c :: _) |- _ =>
        apply Forall_cons in H as [H _]; exists c; split; [set_solver|done]
    end.
Qed.

End Sources.

(** ** Where the identifiers come from *)

Section Provenance.
Context (U : unicode_db).

Lemma triples_table_column c ms :
  table (foldl add_triple c ms) = list_to_set ((λ m, m.1.2) <$> ms) ∪ table c ∧
  column (foldl add_triple c ms) = list_to_set ((λ m, m.2) <$> ms) ∪ column c.
Proof.
  revert c. induction ms as [|[[db tbl] col] ms IH]; intros c.
  - simpl. set_solver.
  - rewrite foldl_step. destruct (IH (add_triple c (db, tbl, col))) as [-> ->].
    simpl. set_solver.
Qed.

Lemma pairs_table_column c ps :
  table (foldl add_pair c ps) =
    list_to_set (fst <$> surviving (database c) ps) ∪ table c ∧
  column (foldl add_pair c ps) =
    list_to_set (snd <$> surviving (database c) ps) ∪ column c.
Proof.
  revert c. induction ps as [|[tbl col] ps IH]; intros c.
  - simpl. set_solver.
  - rewrite foldl_step. destruct (IH (add_pair c (tbl, col))) as [-> ->].
    rewrite add_pair_database. unfold surviving, add_pair.
    rewrite filter_cons. simpl. case_bool_decide as Hd.
    + rewrite decide_True by done. simpl. set_solver.
    + rewrite decide_False by (by intros ?). set_solver.
Qed.

Lemma clauses_table c ms t :
  t ∈ table (foldl (add_clause U) c ms) ↔
  t ∈ table c ∨ ∃ p, (p, t) ∈ ms ∧ not_reserved U t = true.
Proof.
  revert c. induction ms as [|[p tbl] ms IH]; intros c.
  - simpl. split; [auto|]. intros [?|(p & []%elem_of_nil & _)]; done.
  - rewrite foldl_step, IH. unfold add_clause.
    destruct (not_reserved U tbl) eqn:E; simpl.
    + rewrite elem_of_union, elem_of_singleton. split.
      * intros [[->|?]|(q & ? & ?)]; [right; exists p|by left|right; exists q];
          (split; [|done]); [left|by right].
      * intros [?|(q & [[= -> ->]|?]%elem_of_cons & ?)]; [by left; right|by left; left|].
        right. by exists q.
    + split.
      * intros [?|(q & ? & ?)]; [by left|right; exists q]. split; [by right|done].
      * intros [?|(q & [[= -> ->]|?]%elem_of_cons & ?)]; [by left|congruence|].
        right. by exists q.
Qed.

Lemma clauses_database c ms db :
  db ∈ database (foldl (add_clause U) c ms) ↔
  db ∈ database c ∨
  ∃ p t, (p, t) ∈ ms ∧ not_reserved U t = true ∧ p ≠ [] ∧ db = strip_dots p.
Proof.
  revert c. induction ms as [|[p tbl] ms IH]; intros c.
  - simpl. split; [auto|]. intros [?|(p & t & []%elem_of_nil & _)]; done.
  - rewrite foldl_step, IH. unfold add_clause.
    destruct (not_reserved U tbl) eqn:E; simpl.
    + destruct p as [|x p]; simpl.
      * split.
        -- intros [?|(q & t & ? & ?)]; [by left|right; exists q, t].
           split; [by right|done].
        -- intros [?|(q & t & [[= -> ->]|?]%elem_of_cons & ? & ? & ?)];
             [by left|done|]. right. by exists q, t.
      * rewrite elem_of_union, elem_of_singleton. split.
        -- intros [[->|?]|(q & t & ? & ?)];
             [right; exists (x :: p), tbl|by left|right; exists q, t];
             (split; [|done]); [left|by right].
        -- intros [?|(q & t & [[= -> ->]|?]%elem_of_cons & ? & ? & ->)];
             [by left; right|by left; left|]. right. by exists q, t.
    + split.
      * intros [?|(q & t & ? & ?)]; [by left|right; exists q, t].
        split; [by right|done].
      * intros [?|(q & t & [[= -> ->]|?]%elem_of_cons & ? & ?)];
          [by left|congruence|]. right. by exists q, t.
Qed.

Lemma columns_column c cols :
  column (foldl add_column c cols) = list_to_set cols ∪ column c.
Proof.
  revert c. induction cols as [|col cols IH]; intros c; simpl.
  - set_solver.
  - rewrite IH. simpl. set_solver.
Qed.

Lemma after_clauses_fold n :
  after_clauses U n = foldl (add_clause U) (after_pairs U n) (clause_matches U n).
Proof. unfold after_clauses, clause_matches. by rewrite foldl_app. Qed.

(** Where the members of the identifier sets of a file come from. *)
Lemma file_catalog_sources content :
    let cat := file_catalog U content in
    let n := normalize U content in
    (∀ db, db ∈ database cat ↔
       (∃ tbl col, (db, tbl, col) ∈ findall3 U false db_table_column_pattern n) ∨
       (∃ p tbl, (p, tbl) ∈ clause_matches U n ∧ not_reserved U tbl = true ∧
                 p ≠ [] ∧ db = strip_dots p)) ∧
    (∀ tbl, tbl ∈ table cat ↔
       (∃ db col, (db, tbl, col) ∈ relationships cat) ∨
       (∃ p, (p, tbl) ∈ clause_matches U n ∧ not_reserved U tbl = true)) ∧
    (∀ col, col ∈ column cat ↔
       (∃ db tbl, (db, tbl, col) ∈ relationships cat) ∨
       col ∈ columns_of U (findall1 U true select_pattern n)).
Proof.
  intros cat n. subst cat.
  rewrite file_catalog_relationships. fold n.
  rewrite after_clauses_relationships.
  unfold file_catalog. fold n.
  set (cols := columns_of U _).
  destruct (columns_fields (after_clauses U n) cols) as (_ & -> & ->).
  rewrite columns_column, after_clauses_fold.
  rewrite clauses_column.
  set (ts := findall3 U false db_table_column_pattern n).
  set (ps := surviving _ _).
  assert (table (after_pairs U n) =
            list_to_set (fst <$> ps) ∪ list_to_set ((λ m, m.1.2) <$> ts) ∧
          column (after_pairs U n) =
            list_to_set (snd <$> ps) ∪ list_to_set ((λ m, m.2) <$> ts) ∧
          database (after_pairs U n) = list_to_set ((λ m, m.1.1) <$> ts))
    as (Ht & Hc & Hd).
  { unfold after_pairs.
    destruct (pairs_table_column (after_triples U n)
                (findall2 U false table_column_pattern n)) as [-> ->].
    rewrite pairs_database. fold ps. unfold after_triples. fold ts.
    destruct (triples_table_column empty_catalog ts) as [-> ->].
    rewrite triples_database. simpl. clearbody ts ps. set_solver. }
  split_and!.
  - intros db. rewrite clauses_database, Hd, elem_of_list_to_set, list_elem_of_fmap.
    split; (intros [H|H]; [left|by right]).
    + destruct H as ([[d t] k] & -> & ?). by exists t, k.
    + destruct H as (t & k & ?). by exists (db, t, k).
  - intros tbl. rewrite clauses_table, Ht, elem_of_union, !elem_of_list_to_set,
      !list_elem_of_fmap. setoid_rewrite elem_of_app.
    setoid_rewrite list_elem_of_fmap.
    split; (intros [H|H]; [left|by right]).
    + destruct H as [([t k] & Heq & ?)|([[d t] k] & Heq & ?)];
        simpl in Heq; subst tbl.
      * exists [], k. right. by exists (t, k).
      * exists d, k. by left.
    + destruct H as (d & k & [?|([t' k'] & [= -> -> ->] & ?)]).
      * right. by exists (d, tbl, k).
      * left. by exists (t', k').
  - intros col. rewrite Hc, !elem_of_union, !elem_of_list_to_set,
      !list_elem_of_fmap. setoid_rewrite elem_of_app.
    setoid_rewrite list_elem_of_fmap.
    split.
    + intros [?|[([t k] & Heq & ?)|([[d t] k] & Heq & ?)]];
        [by right|simpl in Heq; subst col; left..].
      * exists [], t. right. by exists (t, k).
      * exists d, t. by left.
    + intros [(d & t & [?|([t' k'] & [= -> -> ->] & ?)])|?]; [right..|by left].
      * right. by exists (d, t, col).
      * left. by exists (t', k').
Qed.

Lemma findall3_words n db tbl col :
  (db, tbl, col) ∈ findall3 U false db_table_column_pattern n →
  word U db ∧ word U tbl ∧ word U col ∧ chr "." ∈ n.
Proof.
  unfold findall3. intros (m & [= -> -> ->] & Hm)%list_elem_of_fmap.
  apply findall_elem_suffix in Hm as (pre & s0 & -> & Hm).
  apply triple_match_words in Hm as (? & ? & ? & ?).
  split_and!; [done..|]. rewrite elem_of_app. by right.
Qed.

Lemma findall2_pair_words n tbl col :
  (tbl, col) ∈ findall2 U false table_column_pattern n →
  word U tbl ∧ word U col ∧ chr "." ∈ n.
Proof.
  unfold findall2. intros (m & [= -> ->] & Hm)%list_elem_of_fmap.
  apply findall_elem_suffix in Hm as (pre & s0 & -> & Hm).
  apply pair_match_words in Hm as (? & ? & ?).
  split_and!; [done..|]. rewrite elem_of_app. by right.
Qed.

Lemma clause_matches_shape n p tbl :
  (p, tbl) ∈ clause_matches U n →
  word U tbl ∧
  (p = [] ∨ ∃ w x, word U w ∧ p = w ++ [x] ∧
                   lit_eq U true (chr ".") x = true ∧ x ∈ n).
Proof.
  unfold clause_matches, findall2. rewrite elem_of_app, !list_elem_of_fmap.
  intros [(m & [= -> ->] & Hm)|(m & [= -> ->] & Hm)];
    apply findall_elem_suffix in Hm as (pre & s0 & -> & Hm);
    [apply from_match_shape in Hm|apply join_match_shape in Hm];
    destruct Hm as [? [?|(w & x & ? & ? & ? & ?)]]; (split; [done|]); auto;
    right; exists w, x; split_and!; try done; rewrite elem_of_app; by right.
Qed.

Lemma relationships_words n db tbl col :
  (db, tbl, col) ∈ relationships (after_clauses U n) →
  (db = [] ∨ word U db) ∧ word U tbl ∧ word U col ∧ chr "." ∈ n.
Proof.
  rewrite after_clauses_relationships, elem_of_app.
  intros [H|(p & [= -> -> ->] & Hp)%list_elem_of_fmap].
  - apply findall3_words in H as (? & ? & ? & ?). auto.
  - apply list_elem_of_filter in Hp as [_ Hp]. destruct p as [t c].
    apply findall2_pair_words in Hp as (? & ? & ?). auto.
Qed.

Lemma file_catalog_words content :
  let cat := file_catalog U content in
  (∀ w, w ∈ table cat ∨ w ∈ column cat → word U w) ∧
  (dot_plain U → ∀ w, w ∈ database cat → word U w).
Proof.
  intros cat. destruct (file_catalog_sources content) as (Hd & Ht & Hc).
  fold cat in Hd, Ht, Hc. set (n := normalize U content) in *.
  assert (∀ db tbl col, (db, tbl, col) ∈ relationships cat →
            word U tbl ∧ word U col) as Hrel.
  { intros db tbl col. unfold cat. rewrite file_catalog_relationships.
    intros (_ & ? & ? & _)%relationships_words. done. }
  split.
  - intros w [[(db & col & H)|(p & H & _)]%Ht|[(db & tbl & H)|H]%Hc].
    + by apply Hrel in H as [? _].
    + by apply clause_matches_shape in H as [? _].
    + by apply Hrel in H as [_ ?].
    + by apply columns_of_word in H as [? _].
  - intros Hdot w [(tbl & col & H)|(p & tbl & H & _ & Hp & ->)]%Hd.
    + by apply findall3_words in H as (? & _).
    + apply clause_matches_shape in H as [_ [?|(v & x & Hv & -> & Hx & _)]];
        [done|].
      apply lit_eq_dot in Hx as ->; [|done].
      unfold strip_dots. by rewrite (rstrip_dot U v Hv).
Qed.

Lemma normalize_elem content c :
  c ∈ normalize U content → c = SP ∨ (c ∈ content ∧ is_space U c = false).
Proof.
  unfold normalize. rewrite sub_whitespace.
  set (sq := squeeze U false _).
  destruct (strip_infix U sq) as (pre & post & Hsq).
  intros Hc. assert (c ∈ sq) as Hin.
  { rewrite Hsq, !elem_of_app. auto. }
  apply squeeze_elem in Hin as [?|[Hin ?]]; [by left|].
  apply sub_comment_elem in Hin as [->|?]; [by left|by right].
Qed.

Lemma file_catalog_dot_free content :
  chr "." ∉ content → dot_plain U →
  let cat := file_catalog U content in
  database cat = ∅ ∧ relationships cat = [] ∧
  ∀ w, w ∈ table cat ∨ w ∈ column cat → not_reserved U w = true.
Proof.
  intros Hfree Hdot cat.
  destruct (file_catalog_sources content) as (Hd & Ht & Hc).
  fold cat in Hd, Ht, Hc. set (n := normalize U content) in *.
  assert (chr "." ∉ n) as Hn.
  { intros [[=]|[? _]]%normalize_elem. done. }
  assert (relationships cat = []) as Hrel.
  { apply elem_of_nil_inv. intros [[db tbl] col]. unfold cat.
    rewrite file_catalog_relationships.
    by intros (_ & _ & _ & ?)%relationships_words. }
  split_and!; [|done|].
  - apply set_eq. intros db. rewrite Hd. split; [|by intros ?%elem_of_empty].
    intros [(tbl & col & H)|(p & tbl & H & _ & Hp & _)].
    + by apply findall3_words in H as (_ & _ & _ & ?).
    + apply clause_matches_shape in H as [_ [?|(v & x & _ & _ & Hx & Hin)]];
        [done|]. by apply lit_eq_dot in Hx as ->.
  - rewrite Hrel in Ht, Hc.
    intros w [[(? & ? & []%elem_of_nil)|(p & _ & ?)]%Ht
             |[(? & ? & []%elem_of_nil)|H]%Hc]; [done|].
    by apply columns_of_word in H as [_ ?].
Qed.

Lemma file_catalog_qualified_first content i j db1 tbl1 col1 tbl2 col2 :
  relationships (file_catalog U content) !! i = Some (db1, tbl1, col1) →
  db1 ≠ [] →
  relationships (file_catalog U content) !! j = Some ([], tbl2, col2) →
  i < j.
Proof.
  rewrite file_catalog_relationships, after_clauses_relationships.
  remember (findall3 U false db_table_column_pattern (normalize U content))
    as ts eqn:Hts.
  intros Hi Hdb Hj.
  destruct (decide (j < length ts)) as [Hlt|Hge].
  - rewrite lookup_app_l in Hj by done. subst ts.
    apply list_elem_of_lookup_2, findall3_triple_nonempty in Hj as [? _].
    done.
  - destruct (decide (i < length ts)); [lia|].
    assert (length ts ≤ i) as Hle by lia.
    rewrite lookup_app_r in Hi by exact Hle.
    apply list_elem_of_lookup_2, list_elem_of_fmap in Hi
      as (p & [= -> _ _] & _).
    done.
Qed.

End Provenance.

(** ** The algebra of merging *)

Section MergeAlgebra.
Context (U : unicode_db).

Lemma catalog_eq c1 c2 :
  database c1 = database c2 → table c1 = table c2 → column c1 = column c2 →
  relationships c1 = relationships c2 → c1 = c2.
Proof. destruct c1, c2; simpl. by intros -> -> -> ->. Qed.

Lemma merge_empty_l c : merge empty_catalog c = c.
Proof. apply catalog_eq; simpl; [set_solver..|done]. Qed.

Lemma merge_empty_r c : merge c empty_catalog = c.
Proof. apply catalog_eq; simpl; [set_solver..|by rewrite app_nil_r]. Qed.

Lemma merge_assoc c1 c2 c3 :
  merge c1 (merge c2 c3) = merge (merge c1 c2) c3.
Proof. apply catalog_eq; simpl; [set_solver..|by rewrite app_assoc]. Qed.

Lemma foldl_merge all cats :
  foldl merge all cats = merge all (merge_all cats).
Proof.
  revert all. induction cats as [|c cats IH]; intros all.
  - by rewrite merge_empty_r.
  - unfold merge_all. rewrite !foldl_step, (IH (merge all c)),
      (IH (merge empty_catalog c)), merge_empty_l. apply eq_sym, merge_assoc.
Qed.

Lemma merge_all_app cats1 cats2 :
  merge_all (cats1 ++ cats2) = merge (merge_all cats1) (merge_all cats2).
Proof. unfold merge_all at 1. rewrite foldl_app. apply foldl_merge. Qed.

Lemma sql_files_app folder1 folder2 :
  sql_files (folder1 ++ folder2) = sql_files folder1 ++ sql_files folder2.
Proof. apply filter_app. Qed.

Lemma process_app folder1 folder2 :
  process_sql_folder U (folder1 ++ folder2) =
  Ok (merge (merge_all (file_catalog U <$> (snd <$> sql_files folder1)))
            (merge_all (file_catalog U <$> (snd <$> sql_files folder2)))).
Proof.
  rewrite process_sql_folder_ok, sql_files_app, !fmap_app.
  by rewrite merge_all_app.
Qed.

Lemma sql_files_one name content :
  endswith name (text_of ".sql") = true →
  sql_files [(name, content)] = [(name, content)].
Proof.
  intros Hname. unfold sql_files. rewrite filter_cons. simpl.
  by rewrite decide_True.
Qed.

Lemma listed_file_contained folder name content :
  (name, content) ∈ folder → endswith name (text_of ".sql") = true →
  sets_grow (file_catalog U content)
    (merge_all (file_catalog U <$> (snd <$> sql_files folder))).
Proof.
  intros Hin Hname.
  assert (file_catalog U content ∈
          file_catalog U <$> (snd <$> sql_files folder)) as Hc.
  { apply list_elem_of_fmap. exists content. split; [done|].
    apply list_elem_of_fmap. exists (name, content). split; [done|].
    by apply list_elem_of_filter. }
  destruct (merge_all_fields (file_catalog U <$> (snd <$> sql_files folder)))
    as (Hd & Ht & Hcol & _).
  unfold sets_grow. rewrite Hd, Ht, Hcol.
  split_and!; intros x Hx; apply elem_of_union_list;
    [exists (database (file_catalog U content))
    |exists (table (file_catalog U content))
    |exists (column (file_catalog U content))];
    (split; [apply list_elem_of_fmap; by exists (file_catalog U content)|done]).
Qed.

End MergeAlgebra.

(** ** Comments *)

Section Comments.
Context (U : unicode_db).

Lemma after_close_body body rest :
  after_close body = None →
  after_close (body ++ text_of "*/" ++ rest) = Some rest.
Proof.
  change (text_of "*/" ++ rest) with (chr "*" :: chr "/" :: rest).
  induction body as [|c1 body IH]; [done|]. cbn [after_close app].
  destruct body as [|c2 body].
  - intros _. cbn [after_close app]. by destruct (c1 =? chr "*")%N.
  - cbn [app]. destruct ((c1 =? chr "*") && (c2 =? chr "/"))%N; [done|].
    apply IH.
Qed.

Lemma after_line_body body rest :
  NL ∉ body → after_line (body ++ NL :: rest) = Some rest.
Proof.
  induction body as [|c body IH]; simpl; [done|].
  intros [Hc Hb]%not_elem_of_cons.
  destruct (N.eqb_spec c NL); [done|]. by apply IH.
Qed.

Lemma comment_token_comment cmt rest :
  is_comment cmt → comment_token (cmt ++ rest) = Some rest.
Proof.
  intros [(body & -> & Hb)|(body & Hb & ->)].
  - rewrite <-!app_assoc. change (text_of "/*" ++ ?x) with (chr "/" :: chr "*" :: x).
    cbn -[after_close text_of]. by apply after_close_body.
  - rewrite <-!app_assoc. change (text_of "--" ++ ?x) with (chr "-" :: chr "-" :: x).
    cbn -[after_line]. by apply after_line_body.
Qed.

Lemma comment_token_plain c s :
  c ≠ chr "-" → c ≠ chr "/" →
  comment_token (c :: s) =
  if ((c =? NL) || (c =? TAB))%N then Some s else None.
Proof.
  intros Hd%N.eqb_neq Hs%N.eqb_neq. cbn [comment_token].
  destruct ((c =? NL) || (c =? TAB))%N; [done|].
  destruct s as [|c2 s2]; [done|]. by rewrite Hd, Hs.
Qed.

Lemma sub_comment_opener_free pre s :
  opener_free pre →
  sub U comment_pattern [SP] (pre ++ s) =
  (blank <$> pre) ++ sub U comment_pattern [SP] s.
Proof.
  intros [Hd Hs]. induction pre as [|c pre IH]; [done|].
  apply not_elem_of_cons in Hd as [Hd1 Hd], Hs as [Hs1 Hs].
  rewrite sub_comment. cbn [app]. rewrite comment_token_plain by done.
  rewrite fmap_cons. unfold blank at 1. cbn [app].
  destruct ((c =? NL) || (c =? TAB))%N; by rewrite IH.
Qed.

Lemma sub_comment_space s :
  sub U comment_pattern [SP] (SP :: s) = SP :: sub U comment_pattern [SP] s.
Proof. by rewrite sub_comment, comment_token_plain. Qed.

Lemma normalize_comment pre cmt rest :
  opener_free pre → is_comment cmt →
  normalize U (pre ++ cmt ++ rest) = normalize U (pre ++ SP :: rest).
Proof.
  intros Hpre Hcmt. unfold normalize.
  rewrite (sub_comment_opener_free pre (cmt ++ rest)) by done.
  rewrite (sub_comment_opener_free pre (SP :: rest)) by done.
  by rewrite sub_comment_space, sub_comment, comment_token_comment.
Qed.

End Comments.

(** ** Fragments of the SELECT list *)

Section Fragments.
Context (U : unicode_db).

(** A greedy run takes the whole of [w] when what follows cannot extend it
    and the rest of the pattern then succeeds. *)
Lemma star_greedy_max {A} p w s (K : text → option A) :
  Forall (λ x, p x = true) w → head s ≫= (λ x, Some (p x)) ≠ Some true →
  is_Some (K s) → star_greedy p (w ++ s) K = K s.
Proof.
  intros Hw Hs [v Hv]. induction Hw as [|x w Hx _ IH]; simpl.
  - destruct s as [|y s]; simpl in *; [done|].
    destruct (p y); [by destruct Hs|done].
  - by rewrite Hx, IH, Hv.
Qed.

Lemma rmatch_plus {A} icase a w s g (k : text → groups → option A) :
  w ≠ [] → Forall (λ x, in_atom U a x = true) w →
  head s ≫= (λ x, Some (in_atom U a x)) ≠ Some true →
  is_Some (k s g) →
  rmatch U icase (Plus a) (w ++ s) g k = k s g.
Proof.
  intros Hne Hw Hs Hk. destruct w as [|x w]; [done|].
  apply Forall_cons in Hw as [Hx Hw]. simpl. rewrite Hx.
  by apply (star_greedy_max _ w s (λ s', k s' g)).
Qed.

Lemma rmatch_group_plus {A} icase i a w s g (k : text → groups → option A) :
  w ≠ [] → Forall (λ x, in_atom U a x = true) w →
  head s ≫= (λ x, Some (in_atom U a x)) ≠ Some true →
  is_Some (k s (set_group i w g)) →
  rmatch U icase (Group i (Plus a)) (w ++ s) g k = k s (set_group i w g).
Proof.
  intros Hne Hw Hs Hk. cbn [rmatch].
  rewrite <-(consumed_app w s) at 2.
  apply (rmatch_plus icase a w s g
           (λ s' g', k s' (set_group i (consumed (w ++ s) s') g')));
    [done..|]. by rewrite consumed_app.
Qed.

Lemma rmatch_cat {A} icase r1 r2 s g (k : text → groups → option A) :
  rmatch U icase (Cat r1 r2) s g k =
  rmatch U icase r1 s g (λ s1 g1, rmatch U icase r2 s1 g1 k).
Proof. done. Qed.

Lemma rmatch_opt {A} icase r s g (k : text → groups → option A) v :
  rmatch U icase r s g k = Some v → rmatch U icase (Opt r) s g k = Some v.
Proof. simpl. by intros ->. Qed.

Lemma rmatch_opt_skip {A} icase r s g (k : text → groups → option A) :
  rmatch U icase r s g k = None → rmatch U icase (Opt r) s g k = k s g.
Proof. simpl. by intros ->. Qed.

Lemma rmatch_atom {A} icase a c s g (k : text → groups → option A) :
  in_atom U a c = true → rmatch U icase (Atom a) (c :: s) g k = k s g.
Proof. simpl. by intros ->. Qed.

Lemma rmatch_lit {A} p s g (k : text → groups → option A) :
  rmatch U false (Lit p) (p :: s) g k = k s g.
Proof. simpl. unfold lit_eq. by rewrite N.eqb_refl. Qed.

Lemma rmatch_group_plus_end {A} icase i a w g
    (k : text → groups → option A) :
  w ≠ [] → Forall (λ x, in_atom U a x = true) w →
  is_Some (k [] (set_group i w g)) →
  rmatch U icase (Group i (Plus a)) w g k = k [] (set_group i w g).
Proof.
  intros. rewrite <-(app_nil_r w) at 1. by apply rmatch_group_plus.
Qed.

Lemma star_greedy_none {A} p s (K : text → option A) :
  (∀ pre s', s = pre ++ s' → K s' = None) → star_greedy p s K = None.
Proof.
  induction s as [|x s IH]; intros HK; simpl.
  - by apply (HK []).
  - assert (K (x :: s) = None) as -> by (by apply (HK [])).
    assert (star_greedy p s K = None) as ->.
    { apply IH. intros pre s' ->. by apply (HK (x :: pre)). }
    by destruct (p x).
Qed.

Lemma word_head_not_word_dot s :
  head (chr "." :: s) ≫= (λ x, Some (in_atom U Word x)) ≠ Some true.
Proof. done. Qed.

Lemma alias_head al :
  alias_of U al → head al ≫= (λ x, Some (in_atom U Word x)) ≠ Some true.
Proof. by intros [->|(a & _ & ->)]. Qed.

Lemma alias_no_dot al : alias_of U al → chr "." ∉ al.
Proof.
  intros [->|(a & Ha & ->)]; [by intros ?%elem_of_nil|].
  apply word_not_dot in Ha. change (text_of " AS " ++ a)
    with (chr " " :: chr "A" :: chr "S" :: chr " " :: a).
  rewrite !not_elem_of_cons. by split_and!.
Qed.

Lemma match_alias {A} al g :
  classes_disjoint U → alias_of U al →
  ∃ g', (∀ i, i ≠ 3 → g' i = g i) ∧
    ∀ f : text → groups → A,
      rmatch U false (Opt alias_pattern) al g (λ s' g', Some (f s' g')) =
      Some (f [] g').
Proof.
  intros Hdis [->|(a & [Hne Ha] & ->)].
  - exists g. split; [done|]. done.
  - exists (set_group 3 a g). split.
    { intros i Hi. unfold set_group. by rewrite (proj2 (Nat.eqb_neq i 3)). }
    intros f.
    assert (head a ≫= (λ x, Some (in_atom U Space x)) ≠ Some true) as Hhd.
    { destruct a as [|x a]; [done|]. simpl.
      apply Forall_cons in Ha as [Hx _]. apply Hdis in Hx. by rewrite Hx. }
    set (k := λ (s' : text) (g' : groups), Some (f s' g')).
    assert (rmatch U false (Group 3 (Plus Word)) a g k =
            Some (f [] (set_group 3 a g))) as H3.
    { by rewrite rmatch_group_plus_end. }
    assert (rmatch U false (Plus Space) ([chr " "] ++ a) g
              (λ s1 g1, rmatch U false (Group 3 (Plus Word)) s1 g1 k) =
            Some (f [] (set_group 3 a g))) as H2.
    { rewrite rmatch_plus; [done|done|by repeat constructor|done|by rewrite H3]. }
    change (text_of " AS " ++ a)
      with ([chr " "] ++ chr "A" :: chr "S" :: ([chr " "] ++ a)).
    apply rmatch_opt. unfold alias_pattern. cbn [seq]. rewrite rmatch_cat.
    rewrite (rmatch_plus false Space [chr " "]);
      [|done|by repeat constructor|done|];
      rewrite rmatch_cat, rmatch_atom by done;
      rewrite rmatch_cat, rmatch_atom by done;
      rewrite rmatch_cat; fold k; by rewrite H2.
Qed.

Lemma rmatch_group_plus_none {A} icase i a s g
    (k : text → groups → option A) :
  (∀ pre s' g', s = pre ++ s' → k s' g' = None) →
  rmatch U icase (Group i (Plus a)) s g k = None.
Proof.
  intros Hk. cbn [rmatch]. destruct s as [|x s]; [done|]. simpl.
  destruct (in_atom U a x); [|done]. apply star_greedy_none.
  intros pre s' ->. by apply (Hk (x :: pre)).
Qed.

Lemma rmatch_lit_none {A} p s g (k : text → groups → option A) :
  p ∉ s → rmatch U false (Lit p) s g k = None.
Proof.
  destruct s as [|x s]; [done|]. intros [Hx _]%not_elem_of_cons. simpl.
  unfold lit_eq. by rewrite (proj2 (N.eqb_neq x p)).
Qed.

(** The column pattern on a fragment: group 2 is the column. *)
Lemma match_fragment q c al :
  classes_disjoint U → qualifier_of U q → word U c → alias_of U al →
  ∃ m, match_at U false column_pattern (q ++ c ++ al) = Some m ∧
       m_groups m 2 = Some c.
Proof.
  intros Hdis Hq [Hne Hc] Hal. unfold match_at.
  generalize (length (q ++ c ++ al)). intros n.
  set (f := λ (s' : text) (g : groups),
         {| m_len := n - length s'; m_groups := g |}).
  change column_pattern
    with (Cat (Opt (Cat (Group 1 (Plus Word)) (L ".")))
            (Cat (Group 2 (Plus Word)) (Opt alias_pattern))).
  rewrite rmatch_cat.
  set (K1 := λ (s1 : text) (g1 : groups),
         rmatch U false (Cat (Group 2 (Plus Word)) (Opt alias_pattern)) s1 g1
           (λ s' g, Some (f s' g))).
  assert (∀ g1, ∃ g', g' 2 = Some c ∧ K1 (c ++ al) g1 = Some (f [] g')) as HK1.
  { intros g1. destruct (match_alias (A:=rx_match) al (set_group 2 c g1) Hdis Hal)
      as (g' & Hg' & Hm).
    exists g'. split; [by rewrite Hg'|]. unfold K1. rewrite rmatch_cat.
    rewrite rmatch_group_plus; [apply Hm|done|done|by apply alias_head|].
    by rewrite Hm. }
  destruct Hq as [->|(t & [Htne Ht] & ->)].
  - destruct (HK1 no_groups) as (g' & Hg2 & HK). exists (f [] g').
    split; [|done]. rewrite rmatch_opt_skip; [done|].
    rewrite rmatch_cat. apply rmatch_group_plus_none.
    intros pre s' g1 Hs. apply rmatch_lit_none. intros Hin.
    assert (chr "." ∈ c ++ al) as [?|?]%elem_of_app.
    { cbn [app] in Hs. rewrite Hs, elem_of_app. by right. }
    + by apply (word_not_dot U c).
    + by apply (alias_no_dot al).
  - destruct (HK1 (set_group 1 t no_groups)) as (g' & Hg2 & HK).
    exists (f [] g'). split; [|done]. apply rmatch_opt.
    rewrite <-(app_assoc t). cbn [app]. rewrite rmatch_cat.
    rewrite rmatch_group_plus; [|done|done|done|]; unfold L;
      rewrite rmatch_lit;
      first [exact HK
            |change (is_Some (K1 (c ++ al) (set_group 1 t no_groups)));
             by rewrite HK].
Qed.

Lemma search_at_head r s m :
  match_at U false r s = Some m → search U r s = Some m.
Proof. destruct s; simpl; by intros ->. Qed.

Lemma select_column_fragment q c al :
  classes_disjoint U → qualifier_of U q → word U c → alias_of U al →
  not_reserved U c = true →
  select_column U (q ++ c ++ al) = [c].
Proof.
  intros Hdis Hq Hc Hal Hres. unfold select_column.
  assert (strip U (q ++ c ++ al) = q ++ c ++ al) as ->.
  { unfold strip. rewrite lstrip_fixed.
    - apply rstrip_fixed. intros x.
      destruct Hal as [->|(a & [Hne Ha] & ->)].
      + rewrite app_nil_r, last_app. destruct Hc as [Hne Hc].
        destruct (last c) as [y|] eqn:E; [|by apply last_None in E].
        intros [= <-]. apply Hdis.
        rewrite Forall_forall in Hc. by apply Hc, last_Some_elem_of.
      + rewrite !app_assoc, last_app.
        destruct (last a) as [y|] eqn:E; [|by apply last_None in E].
        intros [= <-]. apply Hdis.
        rewrite Forall_forall in Ha. by apply Ha, last_Some_elem_of.
    - intros x. destruct Hc as [Hne Hc].
      destruct Hq as [->|(t & [Htne Ht] & ->)].
      + destruct c as [|y c]; [done|]. intros [= <-]. apply Hdis.
        by apply Forall_cons in Hc as [? _].
      + destruct t as [|y t]; [done|]. intros [= <-]. apply Hdis.
        by apply Forall_cons in Ht as [? _]. }
  destruct (match_fragment q c al Hdis Hq Hc Hal) as (m & Hm & Hg).
  rewrite (search_at_head _ _ _ Hm), Hg, Hres. destruct Hc as [Hne _]. by destruct c.
Qed.

End Fragments.

(** ** A qualified name on its own *)

Section RoundTrip.
Context (U : unicode_db).

Lemma blank_fixed (s : text) : NL ∉ s → TAB ∉ s → blank <$> s = s.
Proof.
  induction s as [|x s IH]; [done|].
  intros [Hx Hn]%not_elem_of_cons [Hy Ht]%not_elem_of_cons.
  rewrite fmap_cons, IH by done. unfold blank.
  by rewrite (proj2 (N.eqb_neq x NL)), (proj2 (N.eqb_neq x TAB)).
Qed.

Lemma normalize_fixed s : opener_free s → tidy U s → normalize U s = s.
Proof.
  intros Hfree (Hsp & Hadj & Hhd & Hlast). unfold normalize.
  rewrite <-(app_nil_r s) at 1. rewrite sub_comment_opener_free by done.
  change (sub U comment_pattern [SP] []) with (@nil char).
  rewrite app_nil_r, blank_fixed.
  - rewrite sub_whitespace, squeeze_fixed by done.
    unfold strip. rewrite lstrip_fixed by done. by apply rstrip_fixed.
  - intros Hin. by specialize (Hsp _ Hin eq_refl).
  - intros Hin. by specialize (Hsp _ Hin eq_refl).
Qed.

(** The scan when no position has a match, and when the head has one. *)
Lemma findall_none icase r s :
  (∀ pre s' m, s = pre ++ s' → match_at U icase r s' ≠ Some m) →
  findall U icase r s = [].
Proof.
  intros Hn. destruct (findall U icase r s) as [|m l] eqn:E; [done|].
  assert (m ∈ findall U icase r s) as Hm by (rewrite E; left).
  apply findall_elem_suffix in Hm as (pre & s0 & -> & Hm).
  by destruct (Hn pre s0 m).
Qed.

Lemma findall_head icase r pre rest m :
  match_at U icase r (pre ++ rest) = Some m → m_len m = length pre →
  pre ≠ [] →
  findall U icase r (pre ++ rest) = m :: findall U icase r rest.
Proof.
  intros Hm Hlen Hne. unfold findall. destruct pre as [|x pre]; [done|].
  cbn [app] in *. cbn [scan]. rewrite Hm, Hlen. cbn [length pred app].
  rewrite scan_skip, bool_decide_eq_true_2 by (rewrite length_app; lia).
  by rewrite drop_app_length.
Qed.

(** What a fully qualified name is made of. *)
Lemma word_no_space w x :
  classes_disjoint U → word U w → x ∈ w → is_space U x = false.
Proof.
  intros Hdis [_ Hw] Hin. rewrite Forall_forall in Hw. by apply Hdis, Hw.
Qed.

Lemma qualified_name_elem d t c x :
  x ∈ qualified_name d t c → x = chr "." ∨ x ∈ d ∨ x ∈ t ∨ x ∈ c.
Proof. unfold qualified_name. set_solver. Qed.

Lemma qualified_name_no_space d t c x :
  classes_disjoint U → word U d → word U t → word U c →
  x ∈ qualified_name d t c → is_space U x = false.
Proof.
  intros Hdis Hd Ht Hc [->|[?|[?|?]]]%qualified_name_elem;
    [done|by apply (word_no_space d)|by apply (word_no_space t)
    |by apply (word_no_space c)].
Qed.

Lemma qualified_name_fixed d t c :
  classes_disjoint U → word U d → word U t → word U c →
  normalize U (qualified_name d t c) = qualified_name d t c.
Proof.
  intros Hdis Hd Ht Hc.
  pose proof (λ x, qualified_name_no_space d t c x Hdis Hd Ht Hc) as Hns.
  assert (∀ x, x ∈ qualified_name d t c → is_word U x = true ∨ x = chr ".")
    as Hw.
  { intros x [->|Hin]%qualified_name_elem; [by right|left].
    destruct Hd as [_ Hd], Ht as [_ Ht], Hc as [_ Hc].
    rewrite Forall_forall in Hd, Ht, Hc.
    destruct Hin as [?|[?|?]]; auto. }
  apply normalize_fixed.
  - split; intros [?|[=]]%Hw; done.
  - split_and!.
    + intros x Hin Hx. by rewrite Hns in Hx.
    + intros i Hi. apply list_elem_of_lookup_2, Hns in Hi. done.
    + intros x Hx. apply Hns. destruct (qualified_name d t c); [done|].
      injection Hx as ->. left.
    + intros x Hx. apply Hns. by apply last_Some_elem_of.
Qed.

(** The triple pattern takes the whole of a qualified name. *)
Lemma match_triple d t c :
  word U d → word U t → word U c →
  match_at U false db_table_column_pattern (qualified_name d t c) =
  Some {| m_len := length (qualified_name d t c);
          m_groups := set_group 3 c (set_group 2 t (set_group 1 d no_groups)) |}.
Proof.
  intros [Hdne Hd] [Htne Ht] [Hcne Hc]. unfold match_at, qualified_name.
  generalize (length (d ++ chr "." :: t ++ chr "." :: c)). intros n.
  set (f := λ (s' : text) (g : groups),
         {| m_len := n - length s'; m_groups := g |}).
  set (k := λ (s' : text) (g : groups), Some (f s' g)).
  change (λ (s' : text) (g : groups),
            Some {| m_len := n - length s'; m_groups := g |}) with k.
  assert (∀ g, rmatch U false (Group 3 (Plus Word)) c g k =
               Some (f [] (set_group 3 c g))) as H3.
  { intros g. by rewrite rmatch_group_plus_end. }
  assert (∀ g, rmatch U false
                 (Cat (Group 2 (Plus Word)) (Cat (L ".") (Group 3 (Plus Word))))
                 (t ++ chr "." :: c) g k =
               Some (f [] (set_group 3 c (set_group 2 t g)))) as H2.
  { intros g. rewrite rmatch_cat.
    rewrite rmatch_group_plus; [|done|done|apply word_head_not_word_dot|];
      rewrite rmatch_cat; unfold L; rewrite rmatch_lit, H3;
      first [done|by eexists]. }
  unfold db_table_column_pattern. cbn [seq]. rewrite rmatch_cat.
  rewrite rmatch_group_plus; [|done|done|apply word_head_not_word_dot|];
    rewrite rmatch_cat; unfold L at 1; rewrite rmatch_lit, H2;
    [|by eexists].
  unfold f. simpl. by rewrite Nat.sub_0_r.
Qed.

(** The pair pattern takes its first two parts. *)
Lemma match_pair d t c :
  word U d → word U t →
  match_at U false table_column_pattern (qualified_name d t c) =
  Some {| m_len := length (d ++ chr "." :: t);
          m_groups := set_group 2 t (set_group 1 d no_groups) |}.
Proof.
  intros [Hdne Hd] [Htne Ht]. unfold match_at, qualified_name.
  set (k := λ (s' : text) (g : groups),
         Some {| m_len := length (d ++ chr "." :: t ++ chr "." :: c) - length s';
                 m_groups := g |}).
  assert (length (d ++ chr "." :: t) =
          length (d ++ chr "." :: t ++ chr "." :: c) - length (chr "." :: c))
    as ->.
  { rewrite !length_app. cbn [length]. rewrite length_app. cbn [length]. lia. }
  unfold table_column_pattern. cbn [seq]. rewrite rmatch_cat.
  rewrite rmatch_group_plus; [|done|done|apply word_head_not_word_dot|];
    rewrite rmatch_cat; unfold L; rewrite rmatch_lit;
    (rewrite rmatch_group_plus;
       [|done|done|apply word_head_not_word_dot|by eexists]);
    first [done|by eexists].
Qed.

(** Behind them it finds nothing. *)
Lemma pair_rest_none c pre s' m :
  word U c → chr "." :: c = pre ++ s' →
  match_at U false table_column_pattern s' ≠ Some m.
Proof.
  intros Hc Hs Hm. destruct pre as [|x pre].
  - cbn [app] in Hs. subst s'. revert Hm.
    unfold match_at, table_column_pattern. cbn [seq rmatch plus_greedy].
    assert (in_atom U Word (chr ".") = false) as -> by done. done.
  - injection Hs as _ ->.
    apply pair_match_words in Hm as (_ & _ & Hdot).
    apply (word_not_dot U _ Hc). set_solver.
Qed.

Lemma findall_triple d t c :
  word U d → word U t → word U c →
  findall3 U false db_table_column_pattern (qualified_name d t c) = [(d, t, c)].
Proof.
  intros Hd Ht Hc. unfold findall3.
  pose proof (match_triple d t c Hd Ht Hc) as Hm.
  rewrite <-(app_nil_r (qualified_name d t c)) in Hm at 1.
  rewrite <-(app_nil_r (qualified_name d t c)).
  apply findall_head in Hm; [|done|unfold qualified_name; by destruct d].
  by rewrite Hm.
Qed.

Lemma findall_pair d t c :
  word U d → word U t → word U c →
  findall2 U false table_column_pattern (qualified_name d t c) = [(d, t)].
Proof.
  intros Hd Ht Hc. unfold findall2.
  pose proof (match_pair d t c Hd Ht) as Hm.
  assert (qualified_name d t c = (d ++ chr "." :: t) ++ chr "." :: c) as E.
  { unfold qualified_name. by rewrite <-app_assoc. }
  rewrite E in Hm |- *.
  apply findall_head in Hm; [|done|by destruct d].
  rewrite Hm, (findall_none false _ (chr "." :: c)); [done|].
  intros pre s' m. by apply pair_rest_none.
Qed.

Lemma findall_keyword r d t c :
  classes_disjoint U → word U d → word U t → word U c →
  (∀ s m, match_at U true r s = Some m → ∃ x, x ∈ s ∧ is_space U x = true) →
  findall U true r (qualified_name d t c) = [].
Proof.
  intros Hdis Hd Ht Hc Hr. apply findall_none. intros pre s' m Hs Hm.
  apply Hr in Hm as (x & Hin & Hx).
  rewrite (qualified_name_no_space d t c x) in Hx; [done..|].
  rewrite Hs, elem_of_app. by right.
Qed.

Lemma file_catalog_qualified_name d t c :
  classes_disjoint U → word U d → word U t → word U c →
  file_catalog U (qualified_name d t c) =
  {| database := {[d]}; table := {[t]}; column := {[c]};
     relationships := [(d, t, c)] |}.
Proof.
  intros Hdis Hd Ht Hc. unfold file_catalog.
  rewrite qualified_name_fixed by done.
  unfold findall1. rewrite (findall_keyword select_pattern) by
    (try done; apply select_match_space).
  unfold after_clauses, findall2 at 1 2.
  rewrite (findall_keyword from_pattern), (findall_keyword join_pattern) by
    (try done; first [apply from_match_space|apply join_match_space]).
  unfold after_pairs, after_triples.
  rewrite findall_pair, findall_triple by done.
  cbn [fmap list_fmap columns_of foldl add_triple add_pair empty_catalog
       database table column relationships app].
  rewrite bool_decide_eq_false_2 by set_solver.
  apply catalog_eq; simpl; set_solver.
Qed.

End RoundTrip.

(** ** Sorting *)

Section Lex.
Context {A} `{EqDecision A} (leb : A → A → bool) `{!BoolOrder leb}.

Lemma lex_leb_total a b : lex_leb leb a b = true ∨ lex_leb leb b a = true.
Proof.
  revert b. induction a as [|x a IH]; intros [|y b]; simpl; auto.
  destruct (decide (x = y)) as [Heq|Hxy], (decide (y = x)) as [Heq'|Hyx];
    subst; try done; first [apply IH|apply leb_total].
Qed.

Lemma lex_leb_antisym a b :
  lex_leb leb a b = true → lex_leb leb b a = true → a = b.
Proof.
  revert b. induction a as [|x a IH]; intros [|y b]; simpl; try done.
  destruct (decide (x = y)) as [Heq|Hxy], (decide (y = x)) as [Heq'|Hyx];
    subst; try done.
  - intros. f_equal. by apply IH.
  - intros H1 H2. destruct Hxy. by apply leb_antisym.
Qed.

Lemma lex_leb_trans a b c :
  lex_leb leb a b = true → lex_leb leb b c = true → lex_leb leb a c = true.
Proof.
  revert b c. induction a as [|x a IH]; intros [|y b] [|z c]; simpl; try done.
  destruct (decide (x = y)) as [Heq|Hxy], (decide (y = z)) as [Heq'|Hyz],
    (decide (x = z)) as [Heq''|Hxz]; subst; try done.
  - apply IH.
  - intros H1 H2. destruct Hxy. by apply leb_antisym.
  - intros H1 H2. by apply leb_trans with y.
Qed.

#[export] Instance lex_order : BoolOrder (lex_leb leb).
Proof. split; [apply lex_leb_total|apply lex_leb_trans|apply lex_leb_antisym]. Qed.

End Lex.

#[export] Instance N_order : BoolOrder N.leb.
Proof.
  split; intros *; rewrite ?N.leb_le; lia.
Qed.

#[export] Instance text_order : BoolOrder text_leb.
Proof. unfold text_leb. apply _. Qed.

Lemma key_order {A} (key : A → list text) :
  Inj (=) (=) key → BoolOrder (λ x y, lex_leb text_leb (key x) (key y)).
Proof.
  intros Hinj. split.
  - intros x y. apply lex_leb_total, _.
  - intros x y z. apply lex_leb_trans, _.
  - intros x y H1 H2. apply Hinj. by apply (lex_leb_antisym text_leb).
Qed.

#[export] Instance pair_order : BoolOrder pair_leb.
Proof. apply (key_order (λ p, [p.1; p.2])). by intros [??] [??] [= -> ->]. Qed.

#[export] Instance triple_order : BoolOrder triple_leb.
Proof.
  apply (key_order (λ p, [p.1.1; p.1.2; p.2])).
  by intros [[??]?] [[??]?] [= -> -> ->].
Qed.


Section Sorted.
Context {A} (leb : A → A → bool) `{!BoolOrder leb}.

Local Instance leb_rel_total : Total (λ x y, leb x y = true).
Proof. intros x y. apply leb_total. Qed.
Local Instance leb_rel_trans : Transitive (λ x y, leb x y = true).
Proof. intros x y z. apply leb_trans. Qed.
Local Instance leb_rel_antisym : AntiSymm (=) (λ x y, leb x y = true).
Proof. intros x y. apply leb_antisym. Qed.

Lemma sorted_perm xs : sorted leb xs ≡ₚ xs.
Proof. apply merge_sort_Permutation. Qed.


(** The result does not depend on how the sort proceeds, nor on the order
    in which a set hands over its members. *)
Lemma sorted_unique xs ys :
  ys ≡ₚ xs → Sorted (λ x y, leb x y = true) ys → ys = sorted leb xs.
Proof.
  intros Hperm Hs. apply (Sorted_unique (λ x y, leb x y = true)); [done| |].
  - apply Sorted_merge_sort, _.
  - by rewrite sorted_perm.
Qed.




End Sorted.


(** ** Rows of a sheet *)

Section Layout.




Lemma put_rows_cons row rows (sh : gmap string value) r :
  put_rows (row :: rows) (sh, r) =
  put_rows rows
    (foldl (λ sh cv, <[cell cv.1 r := cv.2]> sh) sh row, S r).
Proof. done. Qed.

Lemma put_rows_next rows (sh : gmap string value) r :
  (put_rows rows (sh, r)).2 = r + length rows.
Proof.
  revert sh r. induction rows as [|row rows IH]; intros sh r.
  - simpl. lia.
  - rewrite put_rows_cons, IH. simpl. lia.
Qed.




End Layout.

(** ** The cell setter *)

Section Cells.
Local Open Scope char_scope.










End Cells.

(** ** The views of the report *)

Section Views.
Local Open Scope char_scope.
Context (U : unicode_db).

Lemma col_relationships_elem c col tbl db :
  (col, tbl, db) ∈ col_relationships c ↔ (db, tbl, col) ∈ relationships c.
Proof.
  unfold col_relationships.
  assert (∀ rels (acc : gset (text * text * text)),
    (col, tbl, db) ∈ foldl add_col_relationship acc rels ↔
    (col, tbl, db) ∈ acc ∨ (db, tbl, col) ∈ rels) as Hfold.
  { induction rels as [|[[d t] k] rels IH]; intros acc.
    - simpl. split; [auto|]. by intros [?|?%elem_of_nil].
    - rewrite foldl_step, IH. unfold add_col_relationship.
      rewrite elem_of_union, elem_of_singleton, elem_of_cons. naive_solver. }
  rewrite Hfold. set_solver.
Qed.

Lemma standalone_tables_elem c tbl :
  tbl ∈ standalone_tables c ↔
  tbl ∈ table c ∧ ∀ db, (tbl, db) ∉ table_db_pairs c.
Proof.
  unfold standalone_tables. rewrite elem_of_difference, elem_of_map.
  split; intros [Ht Hno]; (split; [done|]).
  - intros db Hin. apply Hno. by exists (tbl, db).
  - intros ([t db] & -> & Hin). by apply (Hno db).
Qed.

Lemma standalone_columns_elem c col :
  col ∈ standalone_columns c ↔
  col ∈ column c ∧ ∀ db tbl, (db, tbl, col) ∉ relationships c.
Proof.
  unfold standalone_columns. rewrite elem_of_difference, elem_of_map.
  split; intros [Hc Hno]; (split; [done|]).
  - intros db tbl Hin. apply Hno. exists (col, tbl, db).
    split; [done|]. by apply col_relationships_elem.
  - intros ([[k t] d] & -> & Hin). apply (Hno d t).
    by apply col_relationships_elem.
Qed.

Lemma col_relationships_size c :
  size (col_relationships c) ≤ length (relationships c).
Proof.
  unfold col_relationships. generalize (relationships c). intros rels.
  assert (∀ acc : gset (text * text * text),
    size (foldl add_col_relationship acc rels) ≤ size acc + length rels) as H.
  { induction rels as [|[[d t] k] rels IH]; intros acc; [simpl; lia|].
    rewrite foldl_step. etrans; [apply IH|]. unfold add_col_relationship.
    pose proof (size_union_alt {[(k, t, d)]} acc) as Hu.
    assert (size (acc ∖ {[(k, t, d)]}) ≤ size acc)
      by (apply subseteq_size; set_solver).
    rewrite Hu, size_singleton. simpl. lia. }
  specialize (H ∅). by rewrite size_empty in H.
Qed.

Lemma merged_closed_named folder :
  let merged := merge_all (file_catalog U <$> (snd <$> sql_files folder)) in
  rel_closed merged ∧ rel_named merged.
Proof.
  intros merged. split; apply merge_all_invariant;
    auto using empty_closed, empty_named, merge_closed, merge_named.
  - apply Forall_fmap, Forall_true. intros ?. apply file_catalog_closed.
  - apply Forall_fmap, Forall_true. intros ?. apply file_catalog_named.
Qed.

Lemma merged_views folder :
  let merged := merge_all (file_catalog U <$> (snd <$> sql_files folder)) in
  (∀ col tbl db,
     (col, tbl, db) ∈ col_relationships merged ↔
     (db, tbl, col) ∈ relationships merged) ∧
  (∀ tbl,
     tbl ∈ standalone_tables merged ↔
     tbl ∈ table merged ∧
     ∀ db col, (db, tbl, col) ∈ relationships merged → db = []) ∧
  (∀ col,
     col ∈ standalone_columns merged ↔
     col ∈ column merged ∧
     ∀ db tbl, (db, tbl, col) ∉ relationships merged) ∧
  size (col_relationships merged) ≤ length (relationships merged).
Proof.
  intros merged. destruct (merged_closed_named folder) as [Hc Hn].
  fold merged in Hc, Hn. split_and!.
  - intros col tbl db. apply col_relationships_elem.
  - intros tbl. rewrite standalone_tables_elem.
    split; intros [Ht Hno]; (split; [done|]).
    + intros db col Hin. destruct db as [|x db]; [done|].
      destruct (Hno (x :: db)). apply table_db_pairs_elem.
      split_and!; [done|by eapply Hn|by exists col].
    + intros db (Hdb & _ & col & Hin)%table_db_pairs_elem.
      by apply Hno in Hin.
  - intros col. apply standalone_columns_elem.
  - apply col_relationships_size.
Qed.

End Views.

(** ** The sheets *)

Section Sheets.
Local Open Scope char_scope.

















End Sheets.

(** ** What the sheets hold *)

Section Written.
Local Open Scope char_scope.








End Written.

(** ** The totals of the overview *)

Section Totals.
Local Open Scope char_scope.







End Totals.

(** ** What the report lists *)

Section Listing.
Local Open Scope char_scope.



End Listing.

(** ** The catalogs of the extractor are legal *)

Section Legal.
Context (U : unicode_db).










End Legal.

(** * Further properties: statements *)

Section Further.
Context (U : unicode_db).

Local Open Scope char_scope.

(** X1.  Normalized text is tidy: the only white space in it is the space
    character, no space follows a space, and the text neither begins nor
    ends with white space. *)
Theorem X1_normalized_text_is_tidy content : tidy U (normalize U content).
Proof. apply normalize_shape. Qed.

(** X2.  Running the white-space step of the normalizer (line 14) again on
    normalized text changes nothing. *)
Theorem X2_whitespace_step_is_idempotent content :
  strip U (sub U whitespace_pattern [SP] (normalize U content)) =
  normalize U content.
Proof. apply whitespace_step_fixed. Qed.

(** X3.  The normalizer only deletes characters or puts a space in their
    place: a character of the result is a space or a character of the
    input that is not white space, and the result is no longer than the
    input. *)
Theorem X3_normalizer_only_deletes content :
  (∀ c, c ∈ normalize U content →
     c = SP ∨ (c ∈ content ∧ is_space U c = false)) ∧
  length (normalize U content) ≤ length content.
Proof. apply normalize_chars_length. Qed.

(** X4.  A complete comment reads as one space.  Behind text that holds no
    [-] and no [/], a block comment whose body holds no [*/], or a line
    comment with its newline, can be replaced by a space without changing
    the normalized text, and so without changing the catalog. *)
Theorem X4_comment_reads_as_space pre cmt rest :
  opener_free pre → is_comment cmt →
  normalize U (pre ++ cmt ++ rest) = normalize U (pre ++ SP :: rest) ∧
  extract_sql_components U (pre ++ cmt ++ rest) =
    extract_sql_components U (pre ++ SP :: rest).
Proof.
  intros Hpre Hcmt. split; [by apply normalize_comment|].
  unfold extract_sql_components. by rewrite (normalize_comment U pre cmt rest).
Qed.

(** X5.  Every table and every column of a file's catalog is a non-empty
    run of word characters; so is every database name, provided that
    case-insensitive matching relates no character to the dot. *)
Theorem X5_identifiers_are_words content :
  ∃ cat,
    extract_sql_components U content = Ok cat ∧
    (∀ w, w ∈ table cat ∨ w ∈ column cat → word U w) ∧
    (dot_plain U → ∀ w, w ∈ database cat → word U w).
Proof.
  exists (file_catalog U content). split; [apply extract_ok|].
  apply file_catalog_words.
Qed.

(** X6.  A text without a dot gives a catalog without databases and
    without relationships, in which no table and no column is a reserved
    word. *)
Theorem X6_text_without_dots content :
  chr "." ∉ content → dot_plain U →
  ∃ cat,
    extract_sql_components U content = Ok cat ∧
    database cat = ∅ ∧ relationships cat = [] ∧
    ∀ w, w ∈ table cat ∨ w ∈ column cat → not_reserved U w = true.
Proof.
  intros Hfree Hdot. exists (file_catalog U content).
  split; [apply extract_ok|]. by apply file_catalog_dot_free.
Qed.

(** X7.  Where the members of the identifier sets come from.  A database
    is the first part of a triple match or the prefix of a FROM or JOIN
    match whose table is not reserved; a table is the table of a
    relationship or of such a FROM or JOIN match; a column is the column
    of a relationship or a column of the first SELECT list. *)
Theorem X7_identifier_sources content :
  ∃ cat,
    extract_sql_components U content = Ok cat ∧
    let n := normalize U content in
    (∀ db, db ∈ database cat ↔
       (∃ tbl col,
          (db, tbl, col) ∈ findall3 U false db_table_column_pattern n) ∨
       (∃ p tbl, (p, tbl) ∈ clause_matches U n ∧ not_reserved U tbl = true ∧
                 p ≠ [] ∧ db = strip_dots p)) ∧
    (∀ tbl, tbl ∈ table cat ↔
       (∃ db col, (db, tbl, col) ∈ relationships cat) ∨
       (∃ p, (p, tbl) ∈ clause_matches U n ∧ not_reserved U tbl = true)) ∧
    (∀ col, col ∈ column cat ↔
       (∃ db tbl, (db, tbl, col) ∈ relationships cat) ∨
       col ∈ columns_of U (findall1 U true select_pattern n)).
Proof.
  exists (file_catalog U content). split; [apply extract_ok|].
  apply file_catalog_sources.
Qed.

(** X8.  In the relationship list of a file every qualified entry stands
    before every unqualified one. *)
Theorem X8_qualified_relationships_first content :
  ∃ cat,
    extract_sql_components U content = Ok cat ∧
    ∀ i j db1 tbl1 col1 tbl2 col2,
      relationships cat !! i = Some (db1, tbl1, col1) → db1 ≠ [] →
      relationships cat !! j = Some ([], tbl2, col2) →
      i < j.
Proof.
  exists (file_catalog U content). split; [apply extract_ok|].
  apply file_catalog_qualified_first.
Qed.

(** X9.  Processing a listing made of two parts gives the merge of what
    the parts give; the empty catalog is neutral for the merge and the
    merge is associative. *)
Theorem X9_concatenated_listings folder1 folder2 :
  ∃ c1 c2,
    process_sql_folder U folder1 = Ok c1 ∧
    process_sql_folder U folder2 = Ok c2 ∧
    process_sql_folder U (folder1 ++ folder2) = Ok (merge c1 c2) ∧
    merge empty_catalog c1 = c1 ∧ merge c1 empty_catalog = c1 ∧
    ∀ c3, merge c1 (merge c2 c3) = merge (merge c1 c2) c3.
Proof.
  do 2 eexists. split; [apply process_sql_folder_ok|].
  split; [apply process_sql_folder_ok|]. split; [apply process_app|].
  split; [apply merge_empty_l|]. split; [apply merge_empty_r|].
  intros c3. apply merge_assoc.
Qed.

(** X10.  A second copy of a listed file adds nothing to the three sets
    and repeats the relationships of the file at the end of the list. *)
Theorem X10_copied_file folder name1 name2 content :
  (name1, content) ∈ folder →
  endswith name1 (text_of ".sql") = true →
  endswith name2 (text_of ".sql") = true →
  ∃ before after cat,
    process_sql_folder U folder = Ok before ∧
    process_sql_folder U (folder ++ [(name2, content)]) = Ok after ∧
    extract_sql_components U content = Ok cat ∧
    database after = database before ∧
    table after = table before ∧
    column after = column before ∧
    relationships after = relationships before ++ relationships cat.
Proof.
  intros Hin Hname1 Hname2.
  destruct (listed_file_contained U folder name1 content Hin Hname1)
    as (Hd & Ht & Hc).
  do 3 eexists. split; [apply process_sql_folder_ok|].
  split; [apply process_app|]. split; [apply extract_ok|].
  rewrite sql_files_one by done.
  change (merge_all (file_catalog U <$> (snd <$> [(name2, content)])))
    with (merge empty_catalog (file_catalog U content)).
  rewrite merge_empty_l. simpl. split_and!; [set_solver..|done].
Qed.

(** X11.  A file whose name does not end in [.sql] contributes nothing,
    wherever it stands in the listing. *)
Theorem X11_other_files_ignored folder1 name content folder2 :
  endswith name (text_of ".sql") = false →
  process_sql_folder U (folder1 ++ (name, content) :: folder2) =
  process_sql_folder U (folder1 ++ folder2).
Proof.
  intros Hname. unfold process_sql_folder.
  rewrite !sql_files_app. unfold sql_files at 2. rewrite filter_cons.
  simpl. rewrite decide_False; [done|]. by rewrite Hname.
Qed.

(** X12.  The derived views of a merged catalog.  [col_relationships] is
    the relationship list with each entry turned round and duplicates
    dropped; a table is standalone when it is in the table set and all its
    relationships are unqualified; a column is standalone when it is in the
    column set and in no relationship. *)
Theorem X12_derived_views folder :
  ∃ merged,
    process_sql_folder U folder = Ok merged ∧
    (∀ col tbl db,
       (col, tbl, db) ∈ col_relationships merged ↔
       (db, tbl, col) ∈ relationships merged) ∧
    (∀ tbl,
       tbl ∈ standalone_tables merged ↔
       tbl ∈ table merged ∧
       ∀ db col, (db, tbl, col) ∈ relationships merged → db = []) ∧
    (∀ col,
       col ∈ standalone_columns merged ↔
       col ∈ column merged ∧
       ∀ db tbl, (db, tbl, col) ∉ relationships merged) ∧
    size (col_relationships merged) ≤ length (relationships merged).
Proof.
  eexists. split; [apply process_sql_folder_ok|]. apply merged_views.
Qed.






(** X18.  A fragment of the SELECT list that is a column, with or without
    a qualifier [t.] before it and an alias [ AS a] behind it, contributes
    the column, not the qualifier and not the alias, provided the column is
    not a reserved word and word characters are not white space. *)
Theorem X18_select_fragment q c al :
  classes_disjoint U → qualifier_of U q → word U c → alias_of U al →
  not_reserved U c = true →
  select_column U (q ++ c ++ al) = [c].
Proof. apply select_column_fragment. Qed.

(** X19.  Tidy text that holds no [-] and no [/] is a fixed point of the
    normalizer. *)
Theorem X19_tidy_text_is_unchanged s :
  opener_free s → tidy U s → normalize U s = s.
Proof. apply normalize_fixed. Qed.

(** X20.  A fully qualified name on its own is read back as itself: the
    text [d.t.c] gives the database [d], the table [t], the column [c] and
    the one relationship [(d, t, c)], nothing else, provided no word
    character is white space. *)
Theorem X20_qualified_name_alone d t c :
  classes_disjoint U → word U d → word U t → word U c →
  extract_sql_components U (qualified_name d t c) =
  Ok {| database := {[d]}; table := {[t]}; column := {[c]};
        relationships := [(d, t, c)] |}.
Proof.
  intros Hdis Hd Ht Hc. rewrite extract_ok.
  by rewrite file_catalog_qualified_name.
Qed.


End Further.

(** ** The further properties at concrete inputs *)

Lemma ascii_dot_plain : dot_plain ascii_db.
Proof. by intros c. Qed.

Lemma ascii_classes_disjoint : classes_disjoint ascii_db.
Proof.
  intros x. unfold is_word, is_space, is_ascii, between. simpl.
  destruct (x <? 128)%N; [|done].
  repeat match goal with
         | |- context [(?a <=? ?b)%N] => destruct (N.leb_spec a b)
         | |- context [(?a =? ?b)%N] => destruct (N.eqb_spec a b)
         end; simpl; try done; lia.
Qed.

(** X4 at a block comment between two words. *)
Lemma X4_comment_reads_as_space_witness :
  let pre := text_of "SELECT a" in
  let cmt := text_of "/* the key */" in
  let rest := text_of "FROM t" in
  opener_free pre ∧ is_comment cmt ∧
  normalize ascii_db (pre ++ cmt ++ rest) =
    normalize ascii_db (pre ++ SP :: rest) ∧
  extract_sql_components ascii_db (pre ++ cmt ++ rest) =
    extract_sql_components ascii_db (pre ++ SP :: rest).
Proof.
  intros pre cmt rest.
  assert (opener_free pre) as Hpre by (split; compute_done).
  assert (is_comment cmt) as Hcmt.
  { left. exists (text_of " the key "). by split. }
  split; [exact Hpre|]. split; [exact Hcmt|].
  exact (X4_comment_reads_as_space ascii_db pre cmt rest Hpre Hcmt).
Defined.

(** X5 at [FROM sales.orders]. *)
Lemma X5_identifiers_are_words_witness :
  dot_plain ascii_db ∧
  ∃ cat,
    extract_sql_components ascii_db (text_of "FROM sales.orders") = Ok cat ∧
    text_of "sales" ∈ database cat ∧ word ascii_db (text_of "sales").
Proof.
  split; [exact ascii_dot_plain|].
  destruct (X5_identifiers_are_words ascii_db (text_of "FROM sales.orders"))
    as (cat & Hok & _ & Hdb).
  exists cat. split; [exact Hok|].
  assert (text_of "sales" ∈ database cat) as Hin.
  { vm_compute in Hok. injection Hok as <-. compute_done. }
  split; [exact Hin|]. exact (Hdb ascii_dot_plain _ Hin).
Defined.

(** X6 at [SELECT a FROM t]. *)
Lemma X6_text_without_dots_witness :
  let content := text_of "SELECT a FROM t" in
  (chr "." ∉ content) ∧ dot_plain ascii_db ∧
  ∃ cat,
    extract_sql_components ascii_db content = Ok cat ∧
    database cat = ∅ ∧ relationships cat = [] ∧
    ∀ w, w ∈ table cat ∨ w ∈ column cat → not_reserved ascii_db w = true.
Proof.
  intros content.
  assert (chr "." ∉ content) as Hfree by compute_done.
  split; [exact Hfree|]. split; [exact ascii_dot_plain|].
  exact (X6_text_without_dots ascii_db content Hfree ascii_dot_plain).
Defined.

(** X8 at a text with a triple and a pair. *)
Lemma X8_qualified_relationships_first_witness :
  ∃ cat,
    extract_sql_components ascii_db (text_of "a.b.c x.y") = Ok cat ∧
    relationships cat !! 0 = Some (text_of "a", text_of "b", text_of "c") ∧
    relationships cat !! 1 = Some ([], text_of "x", text_of "y") ∧
    0 < 1.
Proof.
  destruct (X8_qualified_relationships_first ascii_db (text_of "a.b.c x.y"))
    as (cat & Hok & Horder).
  exists cat. split; [exact Hok|].
  assert (relationships cat !! 0 = Some (text_of "a", text_of "b", text_of "c")
          ∧ relationships cat !! 1 = Some ([], text_of "x", text_of "y"))
    as [H0 H1].
  { vm_compute in Hok. injection Hok as <-. by vm_compute. }
  split; [exact H0|]. split; [exact H1|].
  exact (Horder 0 1 _ _ _ _ _ H0 ltac:(done) H1).
Defined.

(** X10 at a folder with one file and a copy of it. *)
Lemma X10_copied_file_witness :
  let folder := [(text_of "a.sql", text_of "d.t.c")] in
  (text_of "a.sql", text_of "d.t.c") ∈ folder ∧
  endswith (text_of "a.sql") (text_of ".sql") = true ∧
  endswith (text_of "b.sql") (text_of ".sql") = true ∧
  ∃ before after cat,
    process_sql_folder ascii_db folder = Ok before ∧
    process_sql_folder ascii_db
      (folder ++ [(text_of "b.sql", text_of "d.t.c")]) = Ok after ∧
    extract_sql_components ascii_db (text_of "d.t.c") = Ok cat ∧
    database after = database before ∧
    table after = table before ∧
    column after = column before ∧
    relationships after = relationships before ++ relationships cat.
Proof.
  intros folder.
  assert ((text_of "a.sql", text_of "d.t.c") ∈ folder) as Hin
    by apply list_elem_of_here.
  assert (endswith (text_of "a.sql") (text_of ".sql") = true) as H1
    by (vm_compute; reflexivity).
  assert (endswith (text_of "b.sql") (text_of ".sql") = true) as H2
    by (vm_compute; reflexivity).
  split; [exact Hin|]. split; [exact H1|]. split; [exact H2|].
  exact (X10_copied_file ascii_db folder _ _ _ Hin H1 H2).
Defined.

(** X11 at a folder with a text file between two SQL files. *)
Lemma X11_other_files_ignored_witness :
  let f1 := [(text_of "a.sql", text_of "d.t.c")] in
  let f2 := [(text_of "b.sql", text_of "SELECT x FROM t")] in
  endswith (text_of "notes.txt") (text_of ".sql") = false ∧
  process_sql_folder ascii_db
    (f1 ++ (text_of "notes.txt", text_of "p.q.r") :: f2) =
  process_sql_folder ascii_db (f1 ++ f2).
Proof.
  intros f1 f2.
  assert (endswith (text_of "notes.txt") (text_of ".sql") = false) as Hname
    by (vm_compute; reflexivity).
  split; [exact Hname|].
  exact (X11_other_files_ignored ascii_db f1 _ (text_of "p.q.r") f2 Hname).
Defined.







(** X18 at [o.total AS amt]. *)
Lemma X18_select_fragment_witness :
  let q := text_of "o." in
  let c := text_of "total" in
  let al := text_of " AS amt" in
  classes_disjoint ascii_db ∧ qualifier_of ascii_db q ∧ word ascii_db c ∧
  alias_of ascii_db al ∧ not_reserved ascii_db c = true ∧
  select_column ascii_db (q ++ c ++ al) = [c].
Proof.
  intros q c al.
  assert (∀ s, s ≠ [] → Forall (λ x, is_word ascii_db x = true) s →
               word ascii_db s) as Hword by (by split).
  assert (qualifier_of ascii_db q) as Hq.
  { right. exists (text_of "o"). split; [|done].
    apply Hword; [done|by repeat constructor]. }
  assert (word ascii_db c) as Hc
    by (apply Hword; [done|by repeat constructor]).
  assert (alias_of ascii_db al) as Hal.
  { right. exists (text_of "amt"). split; [|done].
    apply Hword; [done|by repeat constructor]. }
  assert (not_reserved ascii_db c = true) as Hres by (vm_compute; reflexivity).
  split; [exact ascii_classes_disjoint|]. split; [exact Hq|].
  split; [exact Hc|]. split; [exact Hal|]. split; [exact Hres|].
  exact (X18_select_fragment ascii_db q c al ascii_classes_disjoint
           Hq Hc Hal Hres).
Defined.

(** X19 at [a b]. *)
Lemma X19_tidy_text_is_unchanged_witness :
  opener_free (text_of "a b") ∧ tidy ascii_db (text_of "a b") ∧
  normalize ascii_db (text_of "a b") = text_of "a b".
Proof.
  assert (opener_free (text_of "a b")) as Hfree by (split; compute_done).
  assert (tidy ascii_db (text_of "a b")) as Htidy.
  { split_and!.
    - intros c Hc Hs.
      repeat (apply elem_of_cons in Hc as [->|Hc]; [done|]).
      by apply elem_of_nil in Hc.
    - intros i H1 H2. do 3 (destruct i as [|i]; [done|]). done.
    - by intros c [= <-].
    - by intros c [= <-]. }
  split; [exact Hfree|]. split; [exact Htidy|].
  exact (X19_tidy_text_is_unchanged ascii_db _ Hfree Htidy).
Defined.

(** X20 at [sales.orders.id]. *)
Lemma X20_qualified_name_alone_witness :
  let d := text_of "sales" in
  let t := text_of "orders" in
  let c := text_of "id" in
  classes_disjoint ascii_db ∧ word ascii_db d ∧ word ascii_db t ∧
  word ascii_db c ∧
  extract_sql_components ascii_db (text_of "sales.orders.id") =
  Ok {| database := {[d]}; table := {[t]}; column := {[c]};
        relationships := [(d, t, c)] |}.
Proof.
  intros d t c.
  assert (word ascii_db d) as Hd by (split; [done|by repeat constructor]).
  assert (word ascii_db t) as Ht by (split; [done|by repeat constructor]).
  assert (word ascii_db c) as Hc by (split; [done|by repeat constructor]).
  split; [exact ascii_classes_disjoint|]. split; [exact Hd|].
  split; [exact Ht|]. split; [exact Hc|].
  exact (X20_qualified_name_alone ascii_db d t c ascii_classes_disjoint
           Hd Ht Hc).
Defined.

(** ** The cell setter at concrete inputs

    Of a name of 32768 characters the cell keeps 32767; a database name
    that holds the control character 7 ends the report with
    [IllegalCharacterError]. *)
Example setter_cuts_and_raises :
  (N.of_nat ∘ length) <$> check_string (replicate (Pos.to_nat 32768) (chr "a"))
    = Some 32767%N ∧
  create_excel_data_dictionary
    {| database := {[[7%N]]}; table := ∅; column := ∅;
       relationships := [] |} = None.
Proof. split; vm_compute; reflexivity. Qed.
